(** * Encryption service of the Flowise server

    A shallow embedding of [packages/server/src/services/encryption/index.ts]:
    key admission ([generate], [create]), key selection ([get]), the
    credential cipher ([encrypt], [decrypt]) and the resync engine
    ([resync]), together with the properties of its specification.

    The three database tables the service works on are lists of rows, in
    the iteration order of the store.  The symmetric cipher (crypto-js
    [AES]) and [JSON] are external to the repository and enter as the
    variables of a section. *)

From Stdlib Require Import List String Ascii ZArith NArith Arith Bool Lia.
From Stdlib.Strings Require Import Byte.
From Stdlib Require Import DecimalString DecimalNat.
Import ListNotations.
Local Open Scope string_scope.
Local Open Scope list_scope.

(** ** Exceptions and results *)

(** What a [throw] carries: a plain JavaScript [Error] or the server's
    [InternalFlowiseError] with its HTTP status code. *)
Inductive Exn : Type :=
| Error (message : string)
| InternalFlowiseError (statusCode : Z) (message : string).

(** Modelled from the spec: [getErrorMessage] of [errors/utils] is not part
    of the sources at hand; every public operation re-raises "a single
    uniform internal error carrying the originating component name and
    message", so it yields the message of what was caught. *)
Definition getErrorMessage (error : Exn) : string :=
  match error with
  | Error m => m
  | InternalFlowiseError _ m => m
  end.

(** [StatusCodes.INTERNAL_SERVER_ERROR] of http-status-codes. *)
Definition INTERNAL_SERVER_ERROR : Z := 500.

(** A promise that has settled: fulfilled with a value or rejected. *)
Inductive Result (A : Type) : Type :=
| OK (a : A)
| Throw (e : Exn).
Arguments OK {A} a.
Arguments Throw {A} e.

Definition bind {A B : Type} (r : Result A) (k : A -> Result B) : Result B :=
  match r with
  | OK a => k a
  | Throw e => Throw e
  end.

Notation "x <- r ;; k" := (bind r (fun x => k))
  (at level 61, r at next level, right associativity).
Notation "' p <- r ;; k" := (bind r (fun p => k))
  (at level 61, p pattern, r at next level, right associativity).

(** The [try { ... } catch (error) { throw new InternalFlowiseError(...) }]
    frame around the body of every exported function. *)
Definition try_catch {A : Type} (fn : string) (body : Result A) : Result A :=
  match body with
  | OK a => OK a
  | Throw error =>
      Throw (InternalFlowiseError INTERNAL_SERVER_ERROR
               ("Error: encryptionService." ++ fn ++ " - " ++ getErrorMessage error))
  end.

Definition is_ok {A : Type} (r : Result A) : bool :=
  match r with OK _ => true | Throw _ => false end.

(** ** Entities *)

Module Encryption.
(** A row of the [encryption] table, and the entity object a query
    hydrates from it.  [name] and [updatedDate] are [None] on an entity
    loaded with a [select] that leaves the column out. *)
Record t : Type := mk {
  id : string;
  name : option string;
  encryptionKey : string;
  updatedDate : option Z
}.
End Encryption.

Module Credential.
Record t : Type := mk {
  id : string;
  encryptedData : string;
  isEncryptionKeyLost : bool
}.
End Credential.

Module EncryptionCredential.
Record t : Type := mk {
  encryptionId : string;
  credentialId : string
}.
End EncryptionCredential.

(** [Partial<Encryption>] as [generate] builds it: the two columns a caller
    of [create] may leave undefined. *)
Record PartialEncryption : Type := mkPartial {
  partial_name : option string;
  partial_encryptionKey : option string
}.

(** The tables behind [appServer.AppDataSource]: [encryption], [credential]
    and [encryption_credential], each reached through its repository. *)
Record AppDataSource : Type := mkDb {
  repo_Encryption : list Encryption.t;
  repo_Credential : list Credential.t;
  repo_EncryptionCredential : list EncryptionCredential.t
}.

Definition set_encryption (rows : list Encryption.t) (db : AppDataSource) :=
  mkDb rows (repo_Credential db) (repo_EncryptionCredential db).
Definition set_credential (rows : list Credential.t) (db : AppDataSource) :=
  mkDb (repo_Encryption db) rows (repo_EncryptionCredential db).
Definition set_encryption_credential (rows : list EncryptionCredential.t)
    (db : AppDataSource) :=
  mkDb (repo_Encryption db) (repo_Credential db) rows.

(** ** The collaborating services *)

Module encryptionCredential.
Import EncryptionCredential.

(** Modelled from the spec: the [encryptionCredential] service is not part
    of the sources at hand.  [findByCredentialId(id)] returns the
    associations whose [credentialId] is [id]. *)
Definition findByCredentialId (cid : string) (db : AppDataSource) : list t :=
  filter (fun r => credentialId r =? cid) (repo_EncryptionCredential db).

(** Modelled from the spec: [create(keyId, credentialId)] adds the
    association (K, C). *)
Definition create (eid cid : string) (db : AppDataSource) : AppDataSource :=
  set_encryption_credential (repo_EncryptionCredential db ++ [mk eid cid]) db.

(** Modelled from the spec: [updateKeyId(keyId, credentialId)] sets the key
    of the credential's association to [keyId]. *)
Definition updateEncryptionId (eid cid : string) (db : AppDataSource)
  : AppDataSource :=
  set_encryption_credential
    (map (fun r => if credentialId r =? cid then mk eid (credentialId r) else r)
         (repo_EncryptionCredential db)) db.

(** Modelled from the spec: [deleteByKeyAndCredential(keyId, credentialId)]
    deletes any association between K and C. *)
Definition deleteByEncryptionId (eid cid : string) (db : AppDataSource)
  : AppDataSource :=
  set_encryption_credential
    (filter (fun r => negb ((encryptionId r =? eid) && (credentialId r =? cid)))
            (repo_EncryptionCredential db)) db.
End encryptionCredential.

Module credentials.
Import Credential.

(** Modelled from the spec: the [credentials] service is not part of the
    sources at hand.  [updateIsEncryptionKeyLost(credentialId, bool)] sets
    the flag of the credential row with that id. *)
Definition updateIsEncryptionKeyLost (cid : string) (lost : bool)
    (db : AppDataSource) : AppDataSource :=
  set_credential
    (map (fun c => if id c =? cid then mk (id c) (encryptedData c) lost else c)
         (repo_Credential db)) db.
End credentials.

(** ** Values supplied by the runtime *)

(** [Number.prototype.toString] on a counter: its decimal digits. *)
Definition toString (n : nat) : string :=
  NilEmpty.string_of_uint (Nat.to_uint n).

(** The truthiness test [!x] on a [string | undefined]. *)
Definition falsy (x : option string) : bool :=
  match x with
  | None => true
  | Some s => s =? ""
  end.

Definition base64_alphabet : string :=
  "ABCDEFGHIJKLMNOPQRSTUVWXYZabcdefghijklmnopqrstuvwxyz0123456789+/".

Definition base64_digit (n : N) : ascii :=
  match String.get (N.to_nat n) base64_alphabet with
  | Some c => c
  | None => "="%char
  end.

(** [Buffer.prototype.toString('base64')]: three bytes to four digits, the
    last group padded with [=]. *)
Fixpoint base64 (bytes : list byte) : string :=
  match bytes with
  | [] => ""
  | [a] =>
      let x := Byte.to_N a in
      String (base64_digit (N.shiftr x 2))
        (String (base64_digit (N.shiftl (N.land x 3) 4)) "==")
  | [a; b] =>
      let x := Byte.to_N a in
      let y := Byte.to_N b in
      String (base64_digit (N.shiftr x 2))
        (String (base64_digit (N.lor (N.shiftl (N.land x 3) 4) (N.shiftr y 4)))
           (String (base64_digit (N.shiftl (N.land y 15) 2)) "="))
  | a :: b :: c :: rest =>
      let x := Byte.to_N a in
      let y := Byte.to_N b in
      let z := Byte.to_N c in
      String (base64_digit (N.shiftr x 2))
        (String (base64_digit (N.lor (N.shiftl (N.land x 3) 4) (N.shiftr y 4)))
           (String (base64_digit (N.lor (N.shiftl (N.land y 15) 2) (N.shiftr z 6)))
              (String (base64_digit (N.land z 63)) (base64 rest))))
  end.

(** What the runtime and the store contribute to one [create]: the primary
    key and the timestamp the store assigns on [save], and the entropy
    [crypto.randomBytes] reads. *)
Record Host : Type := mkHost {
  uuid : string;
  now : Z;
  entropy : nat -> byte
}.

Definition randomBytes (size : nat) (h : Host) : list byte :=
  map (entropy h) (seq 0 size).

(** ** Queries on the [encryption] table *)

(** [updatedDate] of one row at most that of another; an absent date sorts
    lowest. *)
Definition date_leb (a b : option Z) : bool :=
  match a, b with
  | None, _ => true
  | Some _, None => false
  | Some x, Some y => (x <=? y)%Z
  end.

Fixpoint insert_DESC (e : Encryption.t) (rows : list Encryption.t)
  : list Encryption.t :=
  match rows with
  | [] => [e]
  | x :: rows' =>
      if date_leb (Encryption.updatedDate x) (Encryption.updatedDate e)
      then e :: x :: rows'
      else x :: insert_DESC e rows'
  end.

(** [order: { updatedDate: 'DESC' }]; rows of equal date keep the order of
    the table. *)
Definition order_updatedDate_DESC (rows : list Encryption.t) : list Encryption.t :=
  fold_right insert_DESC [] rows.

(** The first row of a list is a latest one of it. *)
Definition latest_first (rows : list Encryption.t) : Prop :=
  match rows with
  | [] => True
  | x :: _ =>
      forall y, In y rows ->
                date_leb (Encryption.updatedDate y) (Encryption.updatedDate x) = true
  end.

(** [select: { id: true, encryptionKey: true }]. *)
Definition select_id_encryptionKey (e : Encryption.t) : Encryption.t :=
  Encryption.mk (Encryption.id e) None (Encryption.encryptionKey e) None.

(** The query of [get(credential)]: the encryptions [e] joined through
    [encryption_credential ec] ([ec.encryptionId = e.id]) and [credential c]
    ([ec.credentialId = c.id]) where [c.id = :credentialId].  [getMany]
    yields each joined encryption once. *)
Definition encryptions_of_credential (credentialId : string) (db : AppDataSource)
  : list Encryption.t :=
  filter
    (fun e =>
       existsb
         (fun ec =>
            (EncryptionCredential.encryptionId ec =? Encryption.id e)
            && existsb
                 (fun c =>
                    (EncryptionCredential.credentialId ec =? Credential.id c)
                    && (Credential.id c =? credentialId))
                 (repo_Credential db))
         (repo_EncryptionCredential db))
    (repo_Encryption db).

(** The keys a credential is associated with, read off the association
    rows: the rows of the [encryption] table whose id some row of
    [encryption_credential] pairs with the id of the credential. *)
Definition associated_keys (credentialId : string) (db : AppDataSource)
  : list Encryption.t :=
  filter
    (fun e =>
       existsb
         (fun r =>
            (EncryptionCredential.credentialId r =? credentialId)
            && (EncryptionCredential.encryptionId r =? Encryption.id e))
         (repo_EncryptionCredential db))
    (repo_Encryption db).

(** ** Key selection *)

Definition get (credential : option Credential.t) (db : AppDataSource)
  : Result Encryption.t :=
  try_catch "get"
    match credential with
    | None =>
        let dbResponse :=
          map select_id_encryptionKey (order_updatedDate_DESC (repo_Encryption db)) in
        match dbResponse with
        | e :: _ => OK e
        | [] => Throw (Error "No encryption key available")
        end
    | Some credential =>
        let credentialId := Credential.id credential in
        let dbResponse := encryptions_of_credential credentialId db in
        match dbResponse with
        | [e] => OK e
        | _ :: _ :: _ =>
            Throw (Error ("credentialId: " ++ Credential.id credential
                          ++ " have multiple encryptions"))
        | [] =>
            Throw (Error ("credentialId: " ++ Credential.id credential
                          ++ "'s encryption is lost"))
        end
    end.

(** ** Key admission *)

Definition create (h : Host) (encryption : PartialEncryption) (db : AppDataSource)
  : Result (Encryption.t * AppDataSource) :=
  try_catch "create"
    (let encryptionKey :=
       match partial_encryptionKey encryption with
       | Some k => if falsy (Some k) then base64 (randomBytes 24 h) else k
       | None => base64 (randomBytes 24 h)
       end in
     if falsy (partial_name encryption)
     then Throw (Error "Please provide a name for this encryption.")
     else
       let newEncryption :=
         Encryption.mk (uuid h) (partial_name encryption) encryptionKey
           (Some (now h)) in
       OK (newEncryption, set_encryption (repo_Encryption db ++ [newEncryption]) db)).

(** The closure [insertLegacyEncryption] of [generate]; the counter it
    captures is threaded with the tables. *)
Definition insertLegacyEncryption (h : Host) (encryptionKeys : list string)
    (SECRETKEY : string) (st : nat * AppDataSource)
  : Result (nat * AppDataSource) :=
  let (nameCounter, db) := st in
  if negb (SECRETKEY =? "") && negb (existsb (String.eqb SECRETKEY) encryptionKeys)
  then
    let nameCounter := nameCounter + 1 in
    let newEncryption := mkPartial (Some (toString nameCounter)) (Some SECRETKEY) in
    ' (_, db) <- create h newEncryption db ;;
    OK (nameCounter, db)
  else OK (nameCounter, db).

(** [generate] under the environment variable [FLOWISE_SECRETKEY_OVERWRITE]
    and the outcome [readFile] of reading the legacy key file ([None] when
    the read fails).  [h1], [h2] and [h3] serve its three calls of
    [create]. *)
Definition generate (h1 h2 h3 : Host) (FLOWISE_SECRETKEY_OVERWRITE : option string)
    (readFile : option string) (db : AppDataSource)
  : Result (Encryption.t * AppDataSource) :=
  try_catch "generate"
    (let SECRETKEY_OVERWRITE :=
       match FLOWISE_SECRETKEY_OVERWRITE with
       | Some s => if negb (s =? "") then s else ""
       | None => ""
       end in
     let SECRETKEY_FROM_PATH :=
       match readFile with
       | Some s => s
       | None => ""
       end in
     let encryptionKeys := map Encryption.encryptionKey (repo_Encryption db) in
     let nameCounter := List.length encryptionKeys in
     ' (nameCounter, db) <-
         insertLegacyEncryption h1 encryptionKeys SECRETKEY_FROM_PATH (nameCounter, db) ;;
     ' (nameCounter, db) <-
         insertLegacyEncryption h2 encryptionKeys SECRETKEY_OVERWRITE (nameCounter, db) ;;
     match get None db with
     | OK e => OK (e, db)
     | Throw _ =>
         let nameCounter := nameCounter + 1 in
         let newEncryption := mkPartial (Some (toString nameCounter)) None in
         create h3 newEncryption db
     end).

(** ** A reference cipher and sample stores *)

Module Reference.
(** A stand-in for the cipher, on which the service can be run: the
    ciphertext is the key, a colon and the message; decryption takes the
    key and the colon off and rejects a text that does not start with
    them.  The payload is a text and its own serialisation. *)
Fixpoint strip (prefix text : string) : option string :=
  match prefix with
  | EmptyString => Some text
  | String a prefix' =>
      match text with
      | EmptyString => None
      | String b text' => if Ascii.eqb a b then strip prefix' text' else None
      end
  end.

Definition AES_encrypt (salt message key : string) : string :=
  key ++ ":" ++ message.

Definition AES_decrypt (ciphertext key : string) : Result string :=
  match strip (key ++ ":") ciphertext with
  | Some message => OK message
  | None => Throw (Error "Malformed UTF-8 data")
  end.

Definition JSON_stringify (obj : string) : string := obj.
Definition JSON_parse (text : string) : Result string := OK text.
End Reference.

Module JSON.
(** [JSON.stringify] and [JSON.parse] on payloads whose fields hold a text,
    [null] or [NaN], with keys and texts free of quotes and backslashes.
    [NaN] is written as [null], as every number that is not finite is. *)
Inductive value : Type :=
| NaN
| Null
| Text (s : string).

Definition payload : Type := list (string * value).

Definition quote : ascii := "034"%char.

Definition quoted (s : string) : string :=
  String quote (s ++ String quote "").

Definition stringify_value (v : value) : string :=
  match v with
  | NaN => "null"
  | Null => "null"
  | Text s => quoted s
  end.

Fixpoint members (fields : payload) : string :=
  match fields with
  | [] => ""
  | [(k, v)] => quoted k ++ ":" ++ stringify_value v
  | (k, v) :: rest => quoted k ++ ":" ++ stringify_value v ++ "," ++ members rest
  end.

Definition stringify (obj : payload) : string :=
  "{" ++ members obj ++ "}".

(** The text up to the closing quote, and what follows it. *)
Fixpoint until_quote (text : string) : option (string * string) :=
  match text with
  | EmptyString => None
  | String c rest =>
      if Ascii.eqb c quote then Some ("", rest)
      else
        match until_quote rest with
        | Some (s, after) => Some (String c s, after)
        | None => None
        end
  end.

Definition parse_string (text : string) : option (string * string) :=
  match text with
  | EmptyString => None
  | String c rest => if Ascii.eqb c quote then until_quote rest else None
  end.

Definition parse_value (text : string) : option (value * string) :=
  match text with
  | String "n" (String "u" (String "l" (String "l" after))) => Some (Null, after)
  | _ =>
      match parse_string text with
      | Some (s, after) => Some (Text s, after)
      | None => None
      end
  end.

Fixpoint parse_members (fuel : nat) (text : string) : option payload :=
  match fuel with
  | O => None
  | S fuel =>
      match parse_string text with
      | Some (k, String ":" after) =>
          match parse_value after with
          | Some (v, String "," more) =>
              match parse_members fuel more with
              | Some fields => Some ((k, v) :: fields)
              | None => None
              end
          | Some (v, String "}" EmptyString) => Some [(k, v)]
          | _ => None
          end
      | _ => None
      end
  end.

Definition parse (text : string) : Result payload :=
  match text with
  | String "{" (String "}" EmptyString) => OK []
  | String "{" after =>
      match parse_members (String.length after) after with
      | Some obj => OK obj
      | None => Throw (Error "Unexpected token in JSON")
      end
  | _ => Throw (Error "Unexpected token in JSON")
  end.
End JSON.

Module Scenario.
Definition K1 := Encryption.mk "e1" (Some "1") "key-one" (Some 100%Z).
Definition K2 := Encryption.mk "e2" (Some "2") "key-two" (Some 200%Z).
Definition K3 := Encryption.mk "e3" (Some "3") "key-three" (Some 300%Z).

Definition payload : string := "apiKey=sk-1".

(** A credential encrypted under a key, with a given flag. *)
Definition sealed (cid : string) (K : Encryption.t) (lost : bool) : Credential.t :=
  Credential.mk cid
    (Reference.AES_encrypt "salt" (Reference.JSON_stringify payload)
       (Encryption.encryptionKey K))
    lost.

(** A key that is in no store. *)
Definition K0 := Encryption.mk "e0" (Some "0") "key-gone" (Some 1%Z).

(** Keys K1 and K2; [c1] was encrypted under K2, is flagged lost and still
    has a stale association with K1. *)
Definition db_stale : AppDataSource :=
  mkDb [K1; K2] [sealed "c1" K2 true; sealed "c2" K1 false]
       [EncryptionCredential.mk "e1" "c1"].

(** Keys K1, K2 and K3; [c1] was encrypted under K1 and has two
    associations, with K2 and with K3. *)
Definition db_ambiguous : AppDataSource :=
  mkDb [K1; K2; K3] [sealed "c1" K1 true]
       [EncryptionCredential.mk "e2" "c1"; EncryptionCredential.mk "e3" "c1"].

(** Keys K1 and K2; [c1] was encrypted under a key that is not in the
    store and has an association with K1. *)
Definition db_lost : AppDataSource :=
  mkDb [K1; K2] [sealed "c1" K0 false; sealed "c2" K2 false]
       [EncryptionCredential.mk "e1" "c1"; EncryptionCredential.mk "e2" "c2"].

(** No key at all; [c1] is not flagged and has an association. *)
Definition db_no_keys : AppDataSource :=
  mkDb [] [sealed "c1" K0 false] [EncryptionCredential.mk "e0" "c1"].

(** Key K1; [c1] was encrypted under a key that is not in the store and
    has an association with that key. *)
Definition db_dangling : AppDataSource :=
  mkDb [K1] [sealed "c1" K0 false] [EncryptionCredential.mk "e0" "c1"].

Definition host (n : nat) : Host :=
  mkHost ("uuid-" ++ toString n) (Z.of_nat n) (fun _ => Byte.x41).
End Scenario.

(** ** Credential cipher and resync engine *)

Section CredentialCipher.

(** The decrypted payload of a credential, with [JSON.stringify] and
    [JSON.parse] on it. *)
Variable ICredentialDataDecrypted : Type.
Variable JSON_stringify : ICredentialDataDecrypted -> string.
Variable JSON_parse : string -> Result ICredentialDataDecrypted.

(** [AES.encrypt(message, passphrase).toString()], under the salt crypto-js
    draws for the call, and [AES.decrypt(ciphertext, passphrase)
    .toString(enc.Utf8)], which throws on bytes that are no UTF-8 text. *)
Variable AES_encrypt : string -> string -> string -> string.
Variable AES_decrypt : string -> string -> Result string.

Definition encrypt (salt : string) (plainDataObj : ICredentialDataDecrypted)
    (db : AppDataSource) : Result (Encryption.t * string) :=
  try_catch "encrypt"
    (encryption <- get None db ;;
     let encryptedData :=
       AES_encrypt salt (JSON_stringify plainDataObj)
         (Encryption.encryptionKey encryption) in
     OK (encryption, encryptedData)).

Definition decrypt (credential : Credential.t) (encryption : option Encryption.t)
    (db : AppDataSource) : Result (Encryption.t * ICredentialDataDecrypted) :=
  try_catch "decrypt"
    (encryption <-
       match encryption with
       | Some e => OK e
       | None => get (Some credential) db
       end ;;
     text <- AES_decrypt (Credential.encryptedData credential)
               (Encryption.encryptionKey encryption) ;;
     plainDataObj <- JSON_parse text ;;
     OK (encryption, plainDataObj)).

(** The loop of [resync] over [allEncryption] for one credential; leaving
    the recursion is its [break]. *)
Fixpoint resync_credential (credential : Credential.t)
    (allEncryption : list Encryption.t) (db : AppDataSource) : AppDataSource :=
  match allEncryption with
  | [] => db
  | encryption :: rest =>
      let decrypted := is_ok (decrypt credential (Some encryption) db) in
      if decrypted then
        let dbResponse :=
          encryptionCredential.findByCredentialId (Credential.id credential) db in
        let db :=
          if (List.length dbResponse =? 0)%nat then
            encryptionCredential.create
              (Encryption.id encryption) (Credential.id credential) db
          else if (List.length dbResponse =? 1)%nat then
            encryptionCredential.updateEncryptionId
              (Encryption.id encryption) (Credential.id credential) db
          else db in
        credentials.updateIsEncryptionKeyLost (Credential.id credential) false db
      else
        let db :=
          credentials.updateIsEncryptionKeyLost (Credential.id credential) true db in
        let db :=
          encryptionCredential.deleteByEncryptionId
            (Encryption.id encryption) (Credential.id credential) db in
        resync_credential credential rest db
  end.

(** Both lists are read once, before the loops. *)
Definition resync (db : AppDataSource) : Result AppDataSource :=
  try_catch "resync"
    (let allEncryption := repo_Encryption db in
     let allCredential := repo_Credential db in
     OK (fold_left
           (fun db credential => resync_credential credential allEncryption db)
           allCredential db)).

(** [init]: [generate], then [resync]. *)
Definition init (h1 h2 h3 : Host) (FLOWISE_SECRETKEY_OVERWRITE : option string)
    (readFile : option string) (db : AppDataSource) : Result AppDataSource :=
  try_catch "init"
    (' (_, db) <- generate h1 h2 h3 FLOWISE_SECRETKEY_OVERWRITE readFile db ;;
     resync db).

(** *** Reading the outcome of [resync] *)

(** The keys a credential is tried against and rejected by, up to the
    first one that decrypts it. *)
Fixpoint rejected (db : AppDataSource) (credential : Credential.t)
    (allEncryption : list Encryption.t) : list Encryption.t :=
  match allEncryption with
  | [] => []
  | encryption :: rest =>
      if is_ok (decrypt credential (Some encryption) db) then []
      else encryption :: rejected db credential rest
  end.

(** The first key, in store order, that decrypts a credential. *)
Definition first_match (db : AppDataSource) (credential : Credential.t)
  : option Encryption.t :=
  find (fun e => is_ok (decrypt credential (Some e) db)) (repo_Encryption db).

(** An association points at none of the given keys. *)
Definition points_outside (keys : list Encryption.t)
    (r : EncryptionCredential.t) : bool :=
  negb (existsb (fun e => EncryptionCredential.encryptionId r =? Encryption.id e)
          keys).

(** The flag a reader finds on the credential of a given id. *)
Definition lostFlag (cid : string) (db : AppDataSource) : option bool :=
  option_map Credential.isEncryptionKeyLost
    (find (fun c => Credential.id c =? cid) (repo_Credential db)).

(** What [resync_credential] does to the associations of its credential,
    on that list alone. *)
Fixpoint associations_after (db : AppDataSource) (credential : Credential.t)
    (allEncryption : list Encryption.t) (rows : list EncryptionCredential.t)
  : list EncryptionCredential.t :=
  match allEncryption with
  | [] => rows
  | encryption :: rest =>
      if is_ok (decrypt credential (Some encryption) db) then
        match rows with
        | [] => [EncryptionCredential.mk (Encryption.id encryption)
                   (Credential.id credential)]
        | [r] => [EncryptionCredential.mk (Encryption.id encryption)
                    (EncryptionCredential.credentialId r)]
        | _ => rows
        end
      else
        associations_after db credential rest
          (filter (fun r => negb (EncryptionCredential.encryptionId r
                                  =? Encryption.id encryption)) rows)
  end.

(** Case analysis on a comparison of two texts. *)
Ltac eqb_case a b :=
  let E := fresh "E" in
  destruct (String.eqb a b) eqn:E; simpl; rewrite ?E; simpl.

(** *** The services on one credential's rows *)

Lemma decrypt_with_key :
  forall credential encryption db db',
    decrypt credential (Some encryption) db
    = decrypt credential (Some encryption) db'.
Proof. reflexivity. Qed.

Lemma findByCredentialId_create :
  forall eid cid cid' db,
    encryptionCredential.findByCredentialId cid
      (encryptionCredential.create eid cid' db)
    = encryptionCredential.findByCredentialId cid db
      ++ (if cid' =? cid then [EncryptionCredential.mk eid cid'] else []).
Proof.
  intros. unfold encryptionCredential.findByCredentialId,
    encryptionCredential.create. simpl.
  rewrite filter_app. simpl. reflexivity.
Qed.

Lemma findByCredentialId_update_same :
  forall eid cid db,
    encryptionCredential.findByCredentialId cid
      (encryptionCredential.updateEncryptionId eid cid db)
    = map (fun r => EncryptionCredential.mk eid
                      (EncryptionCredential.credentialId r))
        (encryptionCredential.findByCredentialId cid db).
Proof.
  intros. unfold encryptionCredential.findByCredentialId,
    encryptionCredential.updateEncryptionId. simpl.
  induction (repo_EncryptionCredential db) as [|r rows IH]; simpl; auto.
  eqb_case (EncryptionCredential.credentialId r) cid; now rewrite IH.
Qed.

Lemma findByCredentialId_update_other :
  forall eid cid cid' db,
    cid' <> cid ->
    encryptionCredential.findByCredentialId cid
      (encryptionCredential.updateEncryptionId eid cid' db)
    = encryptionCredential.findByCredentialId cid db.
Proof.
  intros eid cid cid' db N. unfold encryptionCredential.findByCredentialId,
    encryptionCredential.updateEncryptionId. simpl.
  induction (repo_EncryptionCredential db) as [|r rows IH]; simpl; auto.
  eqb_case (EncryptionCredential.credentialId r) cid'; rewrite IH; auto.
  apply String.eqb_eq in E. rewrite E.
  apply String.eqb_neq in N. now rewrite N.
Qed.

Lemma findByCredentialId_delete_same :
  forall eid cid db,
    encryptionCredential.findByCredentialId cid
      (encryptionCredential.deleteByEncryptionId eid cid db)
    = filter (fun r => negb (EncryptionCredential.encryptionId r =? eid))
        (encryptionCredential.findByCredentialId cid db).
Proof.
  intros. unfold encryptionCredential.findByCredentialId,
    encryptionCredential.deleteByEncryptionId. simpl.
  induction (repo_EncryptionCredential db) as [|r rows IH]; simpl; auto.
  eqb_case (EncryptionCredential.credentialId r) cid.
  - rewrite andb_true_r.
    eqb_case (EncryptionCredential.encryptionId r) eid;
      rewrite ?E; congruence.
  - rewrite andb_false_r. simpl. rewrite ?E. congruence.
Qed.

Lemma findByCredentialId_delete_other :
  forall eid cid cid' db,
    cid' <> cid ->
    encryptionCredential.findByCredentialId cid
      (encryptionCredential.deleteByEncryptionId eid cid' db)
    = encryptionCredential.findByCredentialId cid db.
Proof.
  intros eid cid cid' db N. unfold encryptionCredential.findByCredentialId,
    encryptionCredential.deleteByEncryptionId. simpl.
  induction (repo_EncryptionCredential db) as [|r rows IH]; simpl; auto.
  eqb_case (EncryptionCredential.credentialId r) cid.
  - apply String.eqb_eq in E.
    assert (X : (EncryptionCredential.credentialId r =? cid') = false)
      by (apply String.eqb_neq; congruence).
    rewrite X, andb_false_r. simpl.
    apply String.eqb_neq in N. rewrite <- E at 1.
    rewrite String.eqb_refl. now rewrite IH.
  - destruct (negb _); simpl; rewrite ?E; auto.
Qed.

Lemma lostFlag_update_same :
  forall cid lost db,
    lostFlag cid (credentials.updateIsEncryptionKeyLost cid lost db)
    = option_map (fun _ => lost) (lostFlag cid db).
Proof.
  intros. unfold lostFlag, credentials.updateIsEncryptionKeyLost. simpl.
  induction (repo_Credential db) as [|c rows IH]; simpl; auto.
  eqb_case (Credential.id c) cid; auto.
Qed.

Lemma lostFlag_update_other :
  forall cid cid' lost db,
    cid' <> cid ->
    lostFlag cid (credentials.updateIsEncryptionKeyLost cid' lost db)
    = lostFlag cid db.
Proof.
  intros cid cid' lost db N.
  unfold lostFlag, credentials.updateIsEncryptionKeyLost. simpl.
  induction (repo_Credential db) as [|c rows IH]; simpl; auto.
  eqb_case (Credential.id c) cid'.
  - apply String.eqb_eq in E. rewrite E.
    apply String.eqb_neq in N. now rewrite N.
  - eqb_case (Credential.id c) cid; auto.
Qed.

Lemma lostFlag_present :
  forall c db,
    In c (repo_Credential db) ->
    exists lost, lostFlag (Credential.id c) db = Some lost.
Proof.
  intros c db. unfold lostFlag.
  induction (repo_Credential db) as [|x rows IH]; simpl; [tauto|].
  intros [->|I].
  - rewrite String.eqb_refl. simpl. eauto.
  - destruct (Credential.id x =? Credential.id c); simpl; eauto.
Qed.

(** *** One credential's pass over the keys *)

Lemma resync_credential_keys :
  forall c keys db,
    repo_Encryption (resync_credential c keys db) = repo_Encryption db.
Proof.
  intros c keys. induction keys as [|e rest IH]; intros db; simpl; auto.
  destruct (is_ok _).
  - repeat match goal with |- context [if ?b then _ else _] => destruct b end;
      reflexivity.
  - now rewrite IH.
Qed.

Lemma resync_credential_other :
  forall c cid keys db,
    Credential.id c <> cid ->
    encryptionCredential.findByCredentialId cid (resync_credential c keys db)
    = encryptionCredential.findByCredentialId cid db
    /\ lostFlag cid (resync_credential c keys db) = lostFlag cid db.
Proof.
  intros c cid keys db N. revert db.
  induction keys as [|e rest IH]; intros db; simpl; auto.
  destruct (is_ok _).
  - split.
    + change (encryptionCredential.findByCredentialId cid
                (credentials.updateIsEncryptionKeyLost (Credential.id c) false ?d))
        with (encryptionCredential.findByCredentialId cid d).
      repeat match goal with |- context [if ?b then _ else _] => destruct b end;
        auto.
      * rewrite findByCredentialId_create.
        apply String.eqb_neq in N. rewrite N. apply app_nil_r.
      * now apply findByCredentialId_update_other.
    + rewrite lostFlag_update_other by assumption.
      repeat match goal with |- context [if ?b then _ else _] => destruct b end;
        reflexivity.
  - destruct (IH (encryptionCredential.deleteByEncryptionId (Encryption.id e)
                    (Credential.id c)
                    (credentials.updateIsEncryptionKeyLost (Credential.id c)
                       true db))) as [R F].
    split.
    + rewrite R. now rewrite findByCredentialId_delete_other.
    + rewrite F.
      change (lostFlag cid (encryptionCredential.deleteByEncryptionId ?a ?b ?d))
        with (lostFlag cid d).
      now apply lostFlag_update_other.
Qed.

Lemma associations_after_db :
  forall db db' c keys rows,
    associations_after db c keys rows = associations_after db' c keys rows.
Proof.
  intros db db' c keys. induction keys as [|e rest IH]; intros rows; simpl; auto.
  rewrite (decrypt_with_key c e db db'). now rewrite IH.
Qed.

Lemma rejected_db :
  forall db db' c keys, rejected db c keys = rejected db' c keys.
Proof.
  intros db db' c keys. induction keys as [|e rest IH]; simpl; auto.
  rewrite (decrypt_with_key c e db db'). now rewrite IH.
Qed.

Lemma resync_credential_associations :
  forall c keys db,
    encryptionCredential.findByCredentialId (Credential.id c)
      (resync_credential c keys db)
    = associations_after db c keys
        (encryptionCredential.findByCredentialId (Credential.id c) db).
Proof.
  intros c keys. induction keys as [|e rest IH]; intros db; simpl; auto.
  destruct (is_ok _) eqn:D.
  - change (encryptionCredential.findByCredentialId (Credential.id c)
              (credentials.updateIsEncryptionKeyLost (Credential.id c) false ?d))
      with (encryptionCredential.findByCredentialId (Credential.id c) d).
    destruct (encryptionCredential.findByCredentialId (Credential.id c) db)
      as [|r [|r' rows]] eqn:R; simpl.
    + rewrite findByCredentialId_create, R, String.eqb_refl. reflexivity.
    + rewrite findByCredentialId_update_same, R. reflexivity.
    + exact R.
  - rewrite IH, findByCredentialId_delete_same.
    apply associations_after_db.
Qed.

Lemma resync_credential_lostFlag :
  forall c keys db,
    lostFlag (Credential.id c) (resync_credential c keys db)
    = match keys with
      | [] => lostFlag (Credential.id c) db
      | _ :: _ =>
          option_map
            (fun _ => negb (existsb (fun e => is_ok (decrypt c (Some e) db)) keys))
            (lostFlag (Credential.id c) db)
      end.
Proof.
  intros c keys. induction keys as [|e rest IH]; intros db; simpl; auto.
  destruct (is_ok _) eqn:D; simpl.
  - rewrite lostFlag_update_same.
    repeat match goal with |- context [if ?b then _ else _] => destruct b end;
      reflexivity.
  - rewrite IH.
    change (lostFlag (Credential.id c)
              (encryptionCredential.deleteByEncryptionId ?a ?b ?d))
      with (lostFlag (Credential.id c) d).
    rewrite lostFlag_update_same.
    destruct rest; simpl; auto.
    destruct (lostFlag (Credential.id c) db); reflexivity.
Qed.

Lemma filter_points_outside_nil :
  forall rows, filter (points_outside []) rows = rows.
Proof.
  induction rows as [|r rows IH]; simpl; auto. now rewrite IH.
Qed.

Lemma filter_points_outside_cons :
  forall e keys rows,
    filter (points_outside keys)
      (filter (fun r => negb (EncryptionCredential.encryptionId r
                              =? Encryption.id e)) rows)
    = filter (points_outside (e :: keys)) rows.
Proof.
  intros e keys. induction rows as [|r rows IH]; simpl; auto.
  unfold points_outside at 2. simpl.
  eqb_case (EncryptionCredential.encryptionId r) (Encryption.id e); auto.
  fold (points_outside keys r). now rewrite IH.
Qed.

Lemma associations_after_spec :
  forall db c keys rows,
    associations_after db c keys rows
    = match find (fun e => is_ok (decrypt c (Some e) db)) keys with
      | None => filter (points_outside keys) rows
      | Some K =>
          match filter (points_outside (rejected db c keys)) rows with
          | [] => [EncryptionCredential.mk (Encryption.id K) (Credential.id c)]
          | [r] => [EncryptionCredential.mk (Encryption.id K)
                      (EncryptionCredential.credentialId r)]
          | kept => kept
          end
      end.
Proof.
  intros db c keys. induction keys as [|e rest IH]; intros rows; simpl.
  - now rewrite filter_points_outside_nil.
  - destruct (is_ok _) eqn:D.
    + rewrite filter_points_outside_nil. now destruct rows as [|r [|r' rows]].
    + rewrite IH, !filter_points_outside_cons. reflexivity.
Qed.

(** *** The pass over all credentials *)

Lemma resync_other_credentials :
  forall keys cid cs db,
    ~ In cid (map Credential.id cs) ->
    encryptionCredential.findByCredentialId cid
      (fold_left (fun db c => resync_credential c keys db) cs db)
    = encryptionCredential.findByCredentialId cid db
    /\ lostFlag cid (fold_left (fun db c => resync_credential c keys db) cs db)
       = lostFlag cid db.
Proof.
  intros keys cid cs. induction cs as [|c cs IH]; intros db N; simpl; auto.
  simpl in N.
  destruct (IH (resync_credential c keys db)) as [R F].
  { intro X. apply N. now right. }
  destruct (resync_credential_other c cid keys db) as [R' F'].
  { intro X. apply N. now left. }
  split.
  - now rewrite R, R'.
  - now rewrite F, F'.
Qed.

Lemma resync_all_keys :
  forall keys cs db,
    repo_Encryption (fold_left (fun db c => resync_credential c keys db) cs db)
    = repo_Encryption db.
Proof.
  intros keys cs. induction cs as [|c cs IH]; intros db; simpl; auto.
  now rewrite IH, resync_credential_keys.
Qed.

Lemma resync_one_credential :
  forall db c,
    NoDup (map Credential.id (repo_Credential db)) ->
    In c (repo_Credential db) ->
    exists db',
      resync db = OK db'
      /\ repo_Encryption db' = repo_Encryption db
      /\ encryptionCredential.findByCredentialId (Credential.id c) db'
         = associations_after db c (repo_Encryption db)
             (encryptionCredential.findByCredentialId (Credential.id c) db)
      /\ lostFlag (Credential.id c) db'
         = match repo_Encryption db with
           | [] => lostFlag (Credential.id c) db
           | _ :: _ =>
               option_map
                 (fun _ => negb (existsb (fun e => is_ok (decrypt c (Some e) db))
                                   (repo_Encryption db)))
                 (lostFlag (Credential.id c) db)
           end.
Proof.
  intros db c ND I. eexists. split; [reflexivity|].
  set (keys := repo_Encryption db).
  split; [apply resync_all_keys|].
  destruct (in_split _ _ I) as (l1 & l2 & S).
  rewrite S in ND |- *. rewrite map_app in ND. simpl in ND.
  assert (N1 : ~ In (Credential.id c) (map Credential.id l1)).
  { intro X. apply NoDup_remove_2 in ND. apply ND, in_or_app. now left. }
  assert (N2 : ~ In (Credential.id c) (map Credential.id l2)).
  { intro X. apply NoDup_remove_2 in ND. apply ND, in_or_app. now right. }
  rewrite fold_left_app. simpl.
  destruct (resync_other_credentials keys (Credential.id c) l1 db N1) as [R1 F1].
  set (db1 := fold_left (fun db c => resync_credential c keys db) l1 db) in *.
  destruct (resync_other_credentials keys (Credential.id c) l2
              (resync_credential c keys db1) N2) as [R2 F2].
  split.
  - rewrite R2, resync_credential_associations, R1.
    apply associations_after_db.
  - rewrite F2, resync_credential_lostFlag, F1.
    destruct keys; auto.
Qed.

(** *** Properties of [resync] *)

Lemma find_first :
  forall (f : Encryption.t -> bool) keys K,
    In K keys -> f K = true ->
    exists K1, find f keys = Some K1.
Proof.
  intros f keys K I T. destruct (find f keys) eqn:F; eauto.
  now rewrite (find_none f keys F K I) in T.
Qed.

Lemma existsb_find :
  forall (f : Encryption.t -> bool) keys K1,
    find f keys = Some K1 -> existsb f keys = true.
Proof.
  intros f keys K1 F. apply find_some in F. apply existsb_exists. eauto.
Qed.

Lemma findByCredentialId_owner :
  forall cid db r,
    In r (encryptionCredential.findByCredentialId cid db) ->
    EncryptionCredential.credentialId r = cid.
Proof.
  intros cid db r I. apply filter_In in I. now apply String.eqb_eq.
Qed.

(** C2 (amended): when the store holds at least one key, a credential that
    decrypts under none of them, and whose associations all point at keys
    of the store, has after [resync] no association and the flag
    [isEncryptionKeyLost] true. *)
Theorem resync_lost_detection :
  forall db c,
    NoDup (map Credential.id (repo_Credential db)) ->
    In c (repo_Credential db) ->
    repo_Encryption db <> [] ->
    (forall K, In K (repo_Encryption db) ->
               is_ok (decrypt c (Some K) db) = false) ->
    (forall r,
        In r (encryptionCredential.findByCredentialId (Credential.id c) db) ->
        exists K, In K (repo_Encryption db)
                  /\ Encryption.id K = EncryptionCredential.encryptionId r) ->
    exists db',
      resync db = OK db'
      /\ encryptionCredential.findByCredentialId (Credential.id c) db' = []
      /\ lostFlag (Credential.id c) db' = Some true.
Proof.
  intros db c ND Ic NE Fail Ref.
  destruct (resync_one_credential db c ND Ic) as (db' & R & _ & Rows & Flag).
  destruct (lostFlag_present c db Ic) as [lost0 L0].
  exists db'. split; [exact R|].
  assert (X : existsb (fun e => is_ok (decrypt c (Some e) db)) (repo_Encryption db)
              = false).
  { destruct (existsb _ _) eqn:X; auto.
    apply existsb_exists in X. destruct X as (K & IK & DK).
    now rewrite (Fail K IK) in DK. }
  split.
  - rewrite Rows, associations_after_spec.
    destruct (find _ _) as [K1|] eqn:F.
    + apply existsb_find in F. congruence.
    + destruct (filter _ _) as [|r kept] eqn:Kept; auto.
      assert (Ir : In r (filter (points_outside (repo_Encryption db))
                     (encryptionCredential.findByCredentialId (Credential.id c) db)))
        by (rewrite Kept; now left).
      apply filter_In in Ir. destruct Ir as [Ir Out].
      destruct (Ref r Ir) as (K & IK & EK).
      unfold points_outside in Out. apply negb_true_iff in Out.
      assert (T : existsb (fun e => EncryptionCredential.encryptionId r
                                    =? Encryption.id e) (repo_Encryption db) = true).
      { apply existsb_exists. exists K. split; auto.
        rewrite EK. apply String.eqb_refl. }
      congruence.
  - rewrite Flag. destruct (repo_Encryption db); [congruence|].
    now rewrite X, L0.
Qed.

(** C10: with no key in the store, [resync] runs the body of its inner
    loop for no credential and leaves every table as it was: no flag
    [isEncryptionKeyLost] and no association changes. *)
Theorem resync_without_keys :
  forall db, repo_Encryption db = [] -> resync db = OK db.
Proof.
  intros db E. unfold resync. simpl. rewrite E. f_equal.
  induction (repo_Credential db) as [|c cs IH]; simpl; auto.
Qed.

(** *** Properties of [encrypt] and [decrypt] *)

Lemma date_leb_refl : forall a, date_leb a a = true.
Proof. destruct a; simpl; auto. apply Z.leb_refl. Qed.

Lemma date_leb_total : forall a b, date_leb a b = false -> date_leb b a = true.
Proof.
  destruct a, b; simpl; auto; try discriminate.
  intros H. apply Z.leb_gt in H. apply Z.leb_le. lia.
Qed.

Lemma date_leb_trans :
  forall a b c, date_leb a b = true -> date_leb b c = true -> date_leb a c = true.
Proof.
  destruct a, b, c; simpl; auto; try discriminate.
  intros H1 H2. apply Z.leb_le in H1, H2. apply Z.leb_le. lia.
Qed.

Lemma insert_DESC_In :
  forall e rows y, In y (insert_DESC e rows) <-> y = e \/ In y rows.
Proof.
  intros e rows y. induction rows as [|x rows IH]; simpl.
  - intuition.
  - destruct (date_leb _ _); simpl; [intuition|]. rewrite IH. intuition.
Qed.

Lemma order_updatedDate_DESC_In :
  forall rows y, In y (order_updatedDate_DESC rows) <-> In y rows.
Proof.
  induction rows as [|x rows IH]; intros y; simpl; [tauto|].
  rewrite insert_DESC_In, IH. intuition.
Qed.

Lemma insert_DESC_latest_first :
  forall e rows, latest_first rows -> latest_first (insert_DESC e rows).
Proof.
  intros e [|x rows] L; simpl.
  - intros y [->|[]]. apply date_leb_refl.
  - destruct (date_leb _ _) eqn:D; simpl.
    + intros y [->|I]; [apply date_leb_refl|].
      eapply date_leb_trans; [apply (L y I)|exact D].
    + intros y [->|I]; [apply date_leb_refl|].
      apply insert_DESC_In in I. destruct I as [->|I].
      * now apply date_leb_total.
      * apply L. now right.
Qed.

Lemma order_updatedDate_DESC_latest_first :
  forall rows, latest_first (order_updatedDate_DESC rows).
Proof.
  induction rows as [|x rows IH]; simpl; auto.
  now apply insert_DESC_latest_first.
Qed.

Lemma order_updatedDate_DESC_head :
  forall rows,
    rows <> [] ->
    exists row rest,
      order_updatedDate_DESC rows = row :: rest
      /\ In row rows
      /\ forall r, In r rows ->
           date_leb (Encryption.updatedDate r) (Encryption.updatedDate row) = true.
Proof.
  intros rows NE.
  destruct (order_updatedDate_DESC rows) as [|row rest] eqn:S.
  - destruct rows as [|x rows]; [congruence|].
    assert (I : In x (order_updatedDate_DESC (x :: rows)))
      by (apply order_updatedDate_DESC_In; now left).
    rewrite S in I. destruct I.
  - exists row, rest. split; auto.
    pose proof (order_updatedDate_DESC_latest_first rows) as L.
    rewrite S in L. unfold latest_first in L.
    split.
    + apply order_updatedDate_DESC_In. rewrite S. now left.
    + intros r I. apply L. rewrite <- S. now apply order_updatedDate_DESC_In.
Qed.

Lemma get_latest :
  forall db,
    get None db
    = match order_updatedDate_DESC (repo_Encryption db) with
      | row :: _ => OK (select_id_encryptionKey row)
      | [] => Throw (InternalFlowiseError INTERNAL_SERVER_ERROR
                       "Error: encryptionService.get - No encryption key available")
      end.
Proof.
  intros db. unfold get.
  destruct (order_updatedDate_DESC (repo_Encryption db)); reflexivity.
Qed.

(** C8: [encrypt] takes the key [get()] returns, the first of the keys
    ordered by [updatedDate] descending and so a most recently updated key
    of the store, and returns it together with the ciphertext made under
    it; on a store without keys it fails. *)
Theorem encrypt_latest_key :
  forall salt P db,
    (repo_Encryption db = [] ->
     encrypt salt P db
     = Throw (InternalFlowiseError INTERNAL_SERVER_ERROR
                ("Error: encryptionService.encrypt - "
                 ++ "Error: encryptionService.get - No encryption key available")))
    /\ (repo_Encryption db <> [] ->
        exists row,
          In row (repo_Encryption db)
          /\ (forall r, In r (repo_Encryption db) ->
                date_leb (Encryption.updatedDate r) (Encryption.updatedDate row)
                = true)
          /\ get None db = OK (select_id_encryptionKey row)
          /\ encrypt salt P db
             = OK (select_id_encryptionKey row,
                   AES_encrypt salt (JSON_stringify P)
                     (Encryption.encryptionKey row))).
Proof.
  intros salt P db. split.
  - intros E. unfold encrypt. rewrite get_latest, E. reflexivity.
  - intros NE.
    destruct (order_updatedDate_DESC_head (repo_Encryption db) NE)
      as (row & rest & S & I & L).
    exists row. repeat split; auto.
    + now rewrite get_latest, S.
    + unfold encrypt. now rewrite get_latest, S.
Qed.

(** *** Under a cipher that round-trips *)

Section RoundTrip.

(** A cipher that gives back what it encrypted, under the key it was
    encrypted with, and a serialisation that parses back. *)
Hypothesis AES_round_trip :
  forall salt message key,
    AES_decrypt (AES_encrypt salt message key) key = OK message.
Hypothesis JSON_round_trip :
  forall obj, JSON_parse (JSON_stringify obj) = OK obj.

Lemma decrypt_produced :
  forall c K salt P db,
    Credential.encryptedData c
    = AES_encrypt salt (JSON_stringify P) (Encryption.encryptionKey K) ->
    decrypt c (Some K) db = OK (K, P).
Proof.
  intros c K salt P db E. unfold decrypt. simpl.
  rewrite E, AES_round_trip. simpl. now rewrite JSON_round_trip.
Qed.

(** C1 (amended): a credential whose ciphertext was produced with a key of
    the store has, after [resync], exactly one association, which points at
    the first key in store order that decrypts it (the producing key, when
    no other key of the store decrypts it), and its flag
    [isEncryptionKeyLost] is false, provided at most one of its
    associations before the call points outside the keys tried and rejected
    before that one; zero or one association before the call always
    qualifies. *)
Theorem resync_convergence :
  forall db c K salt P,
    NoDup (map Credential.id (repo_Credential db)) ->
    In c (repo_Credential db) ->
    In K (repo_Encryption db) ->
    Credential.encryptedData c
    = AES_encrypt salt (JSON_stringify P) (Encryption.encryptionKey K) ->
    (List.length
       (filter (points_outside (rejected db c (repo_Encryption db)))
          (encryptionCredential.findByCredentialId (Credential.id c) db))
     <= 1)%nat ->
    exists db' K1,
      resync db = OK db'
      /\ first_match db c = Some K1
      /\ In K1 (repo_Encryption db')
      /\ is_ok (decrypt c (Some K1) db') = true
      /\ encryptionCredential.findByCredentialId (Credential.id c) db'
         = [EncryptionCredential.mk (Encryption.id K1) (Credential.id c)]
      /\ lostFlag (Credential.id c) db' = Some false
      /\ ((forall K', In K' (repo_Encryption db) ->
                      is_ok (decrypt c (Some K') db) = true -> K' = K) ->
          K1 = K).
Proof.
  intros db c K salt P ND Ic IK Enc Len.
  assert (DK : is_ok (decrypt c (Some K) db) = true)
    by now rewrite (decrypt_produced c K salt P db Enc).
  destruct (find_first (fun e => is_ok (decrypt c (Some e) db)) _ K IK DK)
    as [K1 F1].
  destruct (resync_one_credential db c ND Ic) as (db' & R & Keys & Rows & Flag).
  destruct (lostFlag_present c db Ic) as [lost0 L0].
  exists db', K1. pose proof (find_some _ _ F1) as [I1 D1].
  repeat split; auto.
  - now rewrite Keys.
  - rewrite Rows, associations_after_spec, F1.
    destruct (filter _ _) as [|r [|r' kept]] eqn:Kept; simpl in Len; try lia; auto.
    assert (Ir : In r (filter (points_outside (rejected db c (repo_Encryption db)))
                   (encryptionCredential.findByCredentialId (Credential.id c) db)))
      by (rewrite Kept; now left).
    apply filter_In in Ir. destruct Ir as [Ir _].
    now rewrite (findByCredentialId_owner _ _ _ Ir).
  - rewrite Flag. destruct (repo_Encryption db) eqn:Ks; [easy|].
    rewrite (existsb_find _ _ K1 F1), L0. reflexivity.
Qed.

Lemma decrypt_produced_text :
  forall c K salt P P' db,
    Credential.encryptedData c
    = AES_encrypt salt (JSON_stringify P) (Encryption.encryptionKey K) ->
    JSON_parse (JSON_stringify P) = OK P' ->
    decrypt c (Some K) db = OK (K, P').
Proof.
  intros c K salt P P' db E J. unfold decrypt. simpl.
  rewrite E, AES_round_trip. simpl. now rewrite J.
Qed.

(** C5 (amended): the ciphertext [encrypt] returns for a plaintext object,
    stored as the [encryptedData] of a credential and decrypted with the key
    [encrypt] returned, gives back that key and what [JSON.parse] makes of
    the [JSON.stringify] text of the object; and so does, for every key, a
    ciphertext made under that key.  It is the object itself for every
    object that [JSON.parse] and [JSON.stringify] give back unchanged. *)
Theorem encrypt_decrypt_round_trip :
  forall salt P P' db db' credential,
    JSON_parse (JSON_stringify P) = OK P' ->
    (forall K,
        Credential.encryptedData credential
        = AES_encrypt salt (JSON_stringify P) (Encryption.encryptionKey K) ->
        decrypt credential (Some K) db' = OK (K, P'))
    /\ (forall encryption encryptedData,
           encrypt salt P db = OK (encryption, encryptedData) ->
           Credential.encryptedData credential = encryptedData ->
           decrypt credential (Some encryption) db' = OK (encryption, P')).
Proof.
  intros salt P P' db db' credential J. split.
  - intros K E. now apply decrypt_produced_text with (salt := salt) (P := P).
  - intros encryption encryptedData E C.
    unfold encrypt in E. destruct (get None db) as [K|err]; simpl in E;
      [|discriminate].
    injection E as <- <-.
    now apply decrypt_produced_text with (salt := salt) (P := P).
Qed.

End RoundTrip.

(** *** What [resync] keeps and what it settles *)

Lemma updateIsEncryptionKeyLost_payload :
  forall cid lost db,
    map (fun c => (Credential.id c, Credential.encryptedData c))
      (repo_Credential (credentials.updateIsEncryptionKeyLost cid lost db))
    = map (fun c => (Credential.id c, Credential.encryptedData c))
        (repo_Credential db).
Proof.
  intros cid lost db. unfold credentials.updateIsEncryptionKeyLost. simpl.
  induction (repo_Credential db) as [|c cs IH]; simpl; auto.
  rewrite IH. destruct (Credential.id c =? cid); reflexivity.
Qed.

Lemma resync_credential_payload :
  forall c keys db,
    map (fun c => (Credential.id c, Credential.encryptedData c))
      (repo_Credential (resync_credential c keys db))
    = map (fun c => (Credential.id c, Credential.encryptedData c))
        (repo_Credential db).
Proof.
  intros c keys. induction keys as [|e rest IH]; intros db; simpl; auto.
  destruct (is_ok _).
  - rewrite updateIsEncryptionKeyLost_payload.
    repeat match goal with |- context [if ?b then _ else _] => destruct b end;
      reflexivity.
  - rewrite IH.
    change (repo_Credential (encryptionCredential.deleteByEncryptionId ?a ?b ?d))
      with (repo_Credential d).
    apply updateIsEncryptionKeyLost_payload.
Qed.

Lemma resync_all_payload :
  forall keys cs db,
    map (fun c => (Credential.id c, Credential.encryptedData c))
      (repo_Credential (fold_left (fun db c => resync_credential c keys db) cs db))
    = map (fun c => (Credential.id c, Credential.encryptedData c))
        (repo_Credential db).
Proof.
  intros keys cs. induction cs as [|c cs IH]; intros db; simpl; auto.
  now rewrite IH, resync_credential_payload.
Qed.

Lemma resync_all_ids :
  forall keys cs db,
    map Credential.id
      (repo_Credential (fold_left (fun db c => resync_credential c keys db) cs db))
    = map Credential.id (repo_Credential db).
Proof.
  intros keys cs db. pose proof (resync_all_payload keys cs db) as P.
  apply (f_equal (map fst)) in P. rewrite !map_map in P. exact P.
Qed.

(** X1: [resync] returns a store with the same keys and the same
    credentials, each with the id and the ciphertext it had: it writes
    nothing but flags and associations. *)
Theorem resync_frame :
  forall db,
    exists db',
      resync db = OK db'
      /\ repo_Encryption db' = repo_Encryption db
      /\ map Credential.id (repo_Credential db')
         = map Credential.id (repo_Credential db)
      /\ map Credential.encryptedData (repo_Credential db')
         = map Credential.encryptedData (repo_Credential db).
Proof.
  intros db. eexists. split; [reflexivity|].
  split; [apply resync_all_keys|].
  pose proof (resync_all_payload (repo_Encryption db) (repo_Credential db) db) as P.
  split.
  - apply (f_equal (map fst)) in P. rewrite !map_map in P. exact P.
  - apply (f_equal (map snd)) in P. rewrite !map_map in P. exact P.
Qed.

(** X2: on a store with at least one key and distinct credential ids, the
    flag [resync] leaves on a credential is true exactly when no key of the
    store decrypts it, whatever its associations were. *)
Theorem resync_flag_correct :
  forall db c,
    NoDup (map Credential.id (repo_Credential db)) ->
    In c (repo_Credential db) ->
    repo_Encryption db <> [] ->
    exists db',
      resync db = OK db'
      /\ lostFlag (Credential.id c) db'
         = Some (negb (existsb (fun e => is_ok (decrypt c (Some e) db))
                         (repo_Encryption db))).
Proof.
  intros db c ND Ic NE.
  destruct (resync_one_credential db c ND Ic) as (db' & R & _ & _ & Flag).
  destruct (lostFlag_present c db Ic) as [lost0 L0].
  exists db'. split; [exact R|].
  rewrite Flag. destruct (repo_Encryption db) as [|k ks]; [now elim NE|].
  now rewrite L0.
Qed.

(** X3: for a credential that no key of the store decrypts, [resync]
    deletes exactly its associations with keys of the store; the ones
    pointing elsewhere stay, and none is added. *)
Theorem resync_lost_associations :
  forall db c,
    NoDup (map Credential.id (repo_Credential db)) ->
    In c (repo_Credential db) ->
    (forall K, In K (repo_Encryption db) ->
               is_ok (decrypt c (Some K) db) = false) ->
    exists db',
      resync db = OK db'
      /\ encryptionCredential.findByCredentialId (Credential.id c) db'
         = filter (points_outside (repo_Encryption db))
             (encryptionCredential.findByCredentialId (Credential.id c) db).
Proof.
  intros db c ND Ic Fail.
  destruct (resync_one_credential db c ND Ic) as (db' & R & _ & Rows & _).
  exists db'. split; [exact R|].
  rewrite Rows, associations_after_spec.
  destruct (find _ _) as [K1|] eqn:F; [|reflexivity].
  apply find_some in F. destruct F as [I1 D1].
  rewrite (Fail K1 I1) in D1. discriminate.
Qed.

(** X4: a credential that some key decrypts, but which keeps two or more
    associations once those with the keys rejected before that key are
    deleted, is not repaired: [resync] leaves it those associations and
    clears its flag. *)
Theorem resync_unrepaired :
  forall db c K,
    NoDup (map Credential.id (repo_Credential db)) ->
    In c (repo_Credential db) ->
    first_match db c = Some K ->
    (2 <= List.length
            (filter (points_outside (rejected db c (repo_Encryption db)))
               (encryptionCredential.findByCredentialId (Credential.id c) db)))%nat ->
    exists db',
      resync db = OK db'
      /\ encryptionCredential.findByCredentialId (Credential.id c) db'
         = filter (points_outside (rejected db c (repo_Encryption db)))
             (encryptionCredential.findByCredentialId (Credential.id c) db)
      /\ lostFlag (Credential.id c) db' = Some false.
Proof.
  intros db c K ND Ic F Len.
  destruct (resync_one_credential db c ND Ic) as (db' & R & _ & Rows & Flag).
  destruct (lostFlag_present c db Ic) as [lost0 L0].
  exists db'. split; [exact R|]. unfold first_match in F. split.
  - rewrite Rows, associations_after_spec, F.
    destruct (filter _ _) as [|r [|r' kept]]; simpl in Len; try lia; reflexivity.
  - rewrite Flag. destruct (repo_Encryption db) as [|k ks]; [discriminate|].
    now rewrite (existsb_find _ _ K F), L0.
Qed.

(** X5: [resync] leaves alone the associations of every credential id that
    is not in the credential table. *)
Theorem resync_untracked_associations :
  forall db cid,
    ~ In cid (map Credential.id (repo_Credential db)) ->
    exists db',
      resync db = OK db'
      /\ encryptionCredential.findByCredentialId cid db'
         = encryptionCredential.findByCredentialId cid db.
Proof.
  intros db cid N. eexists. split; [reflexivity|].
  apply (resync_other_credentials (repo_Encryption db) cid (repo_Credential db) db N).
Qed.

Lemma resync_credential_sound :
  forall c all keys db r,
    incl keys all ->
    In r (repo_EncryptionCredential (resync_credential c keys db)) ->
    In r (repo_EncryptionCredential db)
    \/ exists K,
         In K all
         /\ is_ok (decrypt c (Some K) db) = true
         /\ r = EncryptionCredential.mk (Encryption.id K) (Credential.id c).
Proof.
  intros c all keys. induction keys as [|e rest IH]; intros db r Sub I; simpl in I;
    [now left|].
  assert (Ie : In e all) by (apply Sub; now left).
  assert (Sub' : incl rest all) by (intros x X; apply Sub; now right).
  destruct (is_ok (decrypt c (Some e) db)) eqn:D.
  - change (repo_EncryptionCredential
              (credentials.updateIsEncryptionKeyLost (Credential.id c) false ?d))
      with (repo_EncryptionCredential d) in I.
    destruct (List.length _ =? 0)%nat.
    + simpl in I. apply in_app_or in I. destruct I as [I|[<-|[]]]; [now left|].
      right. exists e. auto.
    + destruct (List.length _ =? 1)%nat; [|now left].
      simpl in I. apply in_map_iff in I. destruct I as (r0 & E & I0).
      destruct (String.eqb_spec (EncryptionCredential.credentialId r0)
                  (Credential.id c)) as [Q|Q].
      * right. exists e. rewrite Q in E. auto.
      * left. now subst.
  - destruct (IH _ r Sub' I) as [I0|(K & IK & DK & E)].
    + left. simpl in I0. apply filter_In in I0. apply I0.
    + right. exists K. auto.
Qed.

Lemma resync_all_sound :
  forall all cs db r,
    In r (repo_EncryptionCredential
            (fold_left (fun db c => resync_credential c all db) cs db)) ->
    In r (repo_EncryptionCredential db)
    \/ exists c K,
         In c cs
         /\ In K all
         /\ is_ok (decrypt c (Some K) db) = true
         /\ r = EncryptionCredential.mk (Encryption.id K) (Credential.id c).
Proof.
  intros all cs. induction cs as [|c cs IH]; intros db r I; simpl in I; [now left|].
  destruct (IH _ r I) as [I0|(c0 & K & Ic & IK & DK & E)].
  - destruct (resync_credential_sound c all all db r (incl_refl _) I0)
      as [I1|(K & IK & DK & E)].
    + now left.
    + right. exists c, K. repeat split; auto. now left.
  - right. exists c0, K. repeat split; auto. now right.
Qed.

(** X6: every association in the store [resync] returns was there before
    or joins a credential of the table to a key of the store that decrypts
    it: [resync] associates no credential with a key that fails on it. *)
Theorem resync_sound :
  forall db db' r,
    resync db = OK db' ->
    In r (repo_EncryptionCredential db') ->
    In r (repo_EncryptionCredential db)
    \/ exists c K,
         In c (repo_Credential db)
         /\ In K (repo_Encryption db)
         /\ is_ok (decrypt c (Some K) db) = true
         /\ r = EncryptionCredential.mk (Encryption.id K) (Credential.id c).
Proof.
  intros db db' r R I. unfold resync in R. simpl in R. injection R as <-.
  now apply resync_all_sound in I.
Qed.

Lemma associations_after_same_payload :
  forall db db' c c' keys rows,
    Credential.id c = Credential.id c' ->
    Credential.encryptedData c = Credential.encryptedData c' ->
    associations_after db c keys rows = associations_after db' c' keys rows.
Proof.
  intros db db' c c' keys rows Eid Edata. revert rows.
  induction keys as [|e rest IH]; intros rows; simpl; auto.
  unfold decrypt. simpl. rewrite Edata, Eid. now rewrite IH.
Qed.

Lemma decrypts_same_payload :
  forall db db' c c' keys,
    Credential.encryptedData c = Credential.encryptedData c' ->
    existsb (fun e => is_ok (decrypt c (Some e) db)) keys
    = existsb (fun e => is_ok (decrypt c' (Some e) db')) keys.
Proof.
  intros db db' c c' keys Edata.
  induction keys as [|e rest IH]; simpl; auto.
  rewrite IH. unfold decrypt. simpl. now rewrite Edata.
Qed.

Lemma filter_twice :
  forall (p : EncryptionCredential.t -> bool) rows,
    filter p (filter p rows) = filter p rows.
Proof.
  intros p rows. induction rows as [|r rows IH]; simpl; auto.
  destruct (p r) eqn:P; simpl; rewrite ?P, IH; reflexivity.
Qed.

Lemma associations_after_twice :
  forall db c keys rows,
    (forall r, In r rows -> EncryptionCredential.credentialId r = Credential.id c) ->
    associations_after db c keys (associations_after db c keys rows)
    = associations_after db c keys rows.
Proof.
  intros db c keys rows Own. rewrite !associations_after_spec.
  destruct (find _ _) as [K|] eqn:F; [|apply filter_twice].
  set (q := points_outside (rejected db c keys)).
  destruct (filter q rows) as [|r [|r' kept]] eqn:Kept.
  - simpl. destruct (q _); reflexivity.
  - assert (O : EncryptionCredential.credentialId r = Credential.id c).
    { apply Own. assert (I : In r (filter q rows)) by (rewrite Kept; now left).
      apply filter_In in I. apply I. }
    simpl. rewrite O. destruct (q _); reflexivity.
  - rewrite <- Kept, filter_twice, Kept. reflexivity.
Qed.

Lemma payload_In :
  forall (cs cs' : list Credential.t) c',
    map (fun c => (Credential.id c, Credential.encryptedData c)) cs'
    = map (fun c => (Credential.id c, Credential.encryptedData c)) cs ->
    In c' cs' ->
    exists c, In c cs
              /\ Credential.id c = Credential.id c'
              /\ Credential.encryptedData c = Credential.encryptedData c'.
Proof.
  intros cs cs' c' E I.
  apply (in_map (fun c => (Credential.id c, Credential.encryptedData c))) in I.
  rewrite E in I. apply in_map_iff in I. destruct I as (c & Q & I).
  injection Q as Q1 Q2. exists c. auto.
Qed.

Lemma lostFlag_absent :
  forall cid db,
    ~ In cid (map Credential.id (repo_Credential db)) -> lostFlag cid db = None.
Proof.
  intros cid db. unfold lostFlag.
  induction (repo_Credential db) as [|c cs IH]; simpl; auto.
  intros N. destruct (String.eqb_spec (Credential.id c) cid) as [Q|Q].
  - elim N. now left.
  - apply IH. intro X. apply N. now right.
Qed.

(** X7: a second [resync] settles nothing more: on a store with distinct
    credential ids, every credential id has after the second pass the
    associations and the flag it had after the first. *)
Theorem resync_idempotent :
  forall db db1 cid,
    NoDup (map Credential.id (repo_Credential db)) ->
    resync db = OK db1 ->
    exists db2,
      resync db1 = OK db2
      /\ encryptionCredential.findByCredentialId cid db2
         = encryptionCredential.findByCredentialId cid db1
      /\ lostFlag cid db2 = lostFlag cid db1.
Proof.
  intros db db1 cid ND R.
  assert (Keys : repo_Encryption db1 = repo_Encryption db).
  { unfold resync in R. simpl in R. injection R as <-. apply resync_all_keys. }
  assert (Pay : map (fun c => (Credential.id c, Credential.encryptedData c))
                  (repo_Credential db1)
                = map (fun c => (Credential.id c, Credential.encryptedData c))
                    (repo_Credential db)).
  { unfold resync in R. simpl in R. injection R as <-. apply resync_all_payload. }
  assert (Ids : map Credential.id (repo_Credential db1)
                = map Credential.id (repo_Credential db)).
  { apply (f_equal (map fst)) in Pay. now rewrite !map_map in Pay. }
  destruct (in_dec string_dec cid (map Credential.id (repo_Credential db1)))
    as [I|N].
  - apply in_map_iff in I. destruct I as (c1 & E1 & I1). subst cid.
    destruct (payload_In _ _ c1 Pay I1) as (c & Ic & Eid & Edata).
    destruct (resync_one_credential db c ND Ic) as (d1 & R1 & _ & Rows1 & Flag1).
    rewrite R in R1. injection R1 as <-.
    assert (ND1 : NoDup (map Credential.id (repo_Credential db1)))
      by now rewrite Ids.
    destruct (resync_one_credential db1 c1 ND1 I1) as (db2 & R2 & _ & Rows2 & Flag2).
    exists db2. split; [exact R2|]. split.
    + rewrite Rows2, <- Eid, Rows1, Keys.
      rewrite (associations_after_same_payload db1 db c1 c) by auto.
      apply associations_after_twice.
      intros r. apply findByCredentialId_owner.
    + rewrite Flag2, Keys.
      rewrite (decrypts_same_payload db1 db c1 c (repo_Encryption db))
        by (symmetry; exact Edata).
      rewrite <- Eid, Flag1.
      destruct (repo_Encryption db) as [|k ks]; [reflexivity|].
      destruct (lostFlag (Credential.id c) db); reflexivity.
  - eexists. split; [reflexivity|].
    apply (resync_other_credentials (repo_Encryption db1) cid
             (repo_Credential db1) db1 N).
Qed.

(** *** [decrypt] without a key *)

(** X8: [decrypt(credential)] without a key resolves the key through
    [get(credential)]: with no key joined to the credential it fails with
    the "encryption is lost" error, wrapped once by [get] and once by
    [decrypt]; with exactly one it is [decrypt] under that key; with more
    than one it fails with the "multiple encryptions" error, wrapped the
    same way. *)
Theorem decrypt_without_key :
  forall c db,
    (encryptions_of_credential (Credential.id c) db = [] ->
     decrypt c None db
     = Throw (InternalFlowiseError INTERNAL_SERVER_ERROR
                ("Error: encryptionService.decrypt - "
                 ++ "Error: encryptionService.get - credentialId: "
                 ++ Credential.id c ++ "'s encryption is lost")))
    /\ (forall K,
           encryptions_of_credential (Credential.id c) db = [K] ->
           decrypt c None db = decrypt c (Some K) db)
    /\ ((2 <= List.length (encryptions_of_credential (Credential.id c) db))%nat ->
        decrypt c None db
        = Throw (InternalFlowiseError INTERNAL_SERVER_ERROR
                   ("Error: encryptionService.decrypt - "
                    ++ "Error: encryptionService.get - credentialId: "
                    ++ Credential.id c ++ " have multiple encryptions"))).
Proof.
  intros c db. unfold decrypt, get. split; [|split].
  - intros E. rewrite E. reflexivity.
  - intros K E. rewrite E. reflexivity.
  - intros L.
    destruct (encryptions_of_credential (Credential.id c) db) as [|e [|e' rest]];
      simpl in L; try lia. reflexivity.
Qed.

Lemma joined_credential :
  forall cid x cs,
    In cid (map Credential.id cs) ->
    existsb (fun c => (x =? Credential.id c) && (Credential.id c =? cid)) cs
    = (x =? cid).
Proof.
  intros cid x cs I. apply Bool.eq_iff_eq_true.
  rewrite existsb_exists, String.eqb_eq. split.
  - intros (c & _ & H). apply andb_true_iff in H. destruct H as [H1 H2].
    apply String.eqb_eq in H1, H2. now subst.
  - intros ->. apply in_map_iff in I. destruct I as (c & E & I).
    exists c. split; auto. rewrite E, String.eqb_refl. reflexivity.
Qed.

Lemma joined_associations :
  forall cid db e,
    In cid (map Credential.id (repo_Credential db)) ->
    existsb
      (fun ec =>
         (EncryptionCredential.encryptionId ec =? Encryption.id e)
         && existsb
              (fun c =>
                 (EncryptionCredential.credentialId ec =? Credential.id c)
                 && (Credential.id c =? cid))
              (repo_Credential db))
      (repo_EncryptionCredential db)
    = existsb (fun ec => EncryptionCredential.encryptionId ec =? Encryption.id e)
        (encryptionCredential.findByCredentialId cid db).
Proof.
  intros cid db e I. unfold encryptionCredential.findByCredentialId.
  induction (repo_EncryptionCredential db) as [|ec rows IH]; simpl; auto.
  rewrite (joined_credential cid _ _ I), IH.
  destruct (EncryptionCredential.credentialId ec =? cid); simpl.
  - now rewrite andb_true_r.
  - now rewrite andb_false_r.
Qed.

Lemma filter_by_id :
  forall keys K,
    NoDup (map Encryption.id keys) ->
    In K keys ->
    filter (fun e => (Encryption.id K =? Encryption.id e) || false) keys = [K].
Proof.
  intros keys K. induction keys as [|e rest IH]; simpl; [tauto|].
  intros ND I. inversion ND as [|x xs NI ND' E]. subst.
  destruct I as [->|I].
  - rewrite String.eqb_refl. simpl. f_equal.
    clear IH ND. induction rest as [|y rest IH]; simpl; auto.
    simpl in NI, ND'. inversion ND' as [|x xs NI' ND'' E]. subst.
    destruct (String.eqb_spec (Encryption.id K) (Encryption.id y)) as [Q|Q]; simpl.
    + elim NI. left. now symmetry.
    + apply IH; auto.
  - destruct (String.eqb_spec (Encryption.id K) (Encryption.id e)) as [Q|Q]; simpl.
    + elim NI. rewrite <- Q. now apply in_map.
    + now apply IH.
Qed.

Lemma decrypt_returns_key :
  forall c K db K' P,
    decrypt c (Some K) db = OK (K', P) -> K' = K.
Proof.
  intros c K db K' P. unfold decrypt. simpl.
  destruct (AES_decrypt _ _) as [text|]; simpl; [|discriminate].
  destruct (JSON_parse text); simpl; [|discriminate].
  intros E. now injection E as <- _.
Qed.

(** X9: after [resync], a credential that some key decrypts, and that
    kept at most one association outside the keys rejected before that key,
    is decrypted by [decrypt(credential)] without a key: on a store with
    distinct credential ids and distinct key ids, [get(credential)] returns
    the first key that decrypts it and [decrypt] the payload under that
    key. *)
Theorem resync_then_decrypt :
  forall db c K,
    NoDup (map Credential.id (repo_Credential db)) ->
    NoDup (map Encryption.id (repo_Encryption db)) ->
    In c (repo_Credential db) ->
    first_match db c = Some K ->
    (List.length
       (filter (points_outside (rejected db c (repo_Encryption db)))
          (encryptionCredential.findByCredentialId (Credential.id c) db))
     <= 1)%nat ->
    exists db' P,
      resync db = OK db'
      /\ get (Some c) db' = OK K
      /\ decrypt c (Some K) db = OK (K, P)
      /\ decrypt c None db' = OK (K, P).
Proof.
  intros db c K NDc NDk Ic F Len. unfold first_match in F.
  destruct (resync_one_credential db c NDc Ic) as (db' & R & Keys & Rows & _).
  pose proof (find_some _ _ F) as [IK DK].
  destruct (decrypt c (Some K) db) as [[K' P]|err] eqn:D; [|discriminate].
  pose proof (decrypt_returns_key c K db K' P D) as ->.
  exists db', P. split; [exact R|].
  assert (Rows' : encryptionCredential.findByCredentialId (Credential.id c) db'
                  = [EncryptionCredential.mk (Encryption.id K) (Credential.id c)]).
  { rewrite Rows, associations_after_spec, F.
    destruct (filter _ _) as [|r [|r' kept]] eqn:Kept; simpl in Len; try lia; auto.
    assert (Ir : In r (filter (points_outside (rejected db c (repo_Encryption db)))
                   (encryptionCredential.findByCredentialId (Credential.id c) db)))
      by (rewrite Kept; now left).
    apply filter_In in Ir. destruct Ir as [Ir _].
    now rewrite (findByCredentialId_owner _ _ _ Ir). }
  assert (Ids : In (Credential.id c) (map Credential.id (repo_Credential db'))).
  { unfold resync in R. simpl in R. injection R as <-.
    rewrite resync_all_ids. now apply in_map. }
  assert (Join : encryptions_of_credential (Credential.id c) db' = [K]).
  { unfold encryptions_of_credential.
    rewrite (filter_ext _ (fun e => (Encryption.id K =? Encryption.id e) || false)).
    - rewrite Keys. now apply filter_by_id.
    - intros e. rewrite (joined_associations _ _ e Ids), Rows'. reflexivity. }
  assert (G : get (Some c) db' = OK K) by (unfold get; now rewrite Join).
  split; [exact G|]. split; [reflexivity|].
  unfold decrypt in *. rewrite G. exact D.
Qed.

(** *** Recovery of a lost credential *)

Lemma find_after_rejected :
  forall (f : Encryption.t -> bool) keys e,
    (forall K, In K keys -> f K = false) ->
    f e = true ->
    find f (keys ++ [e]) = Some e.
Proof.
  intros f keys e Fail T. induction keys as [|k keys IH]; simpl.
  - now rewrite T.
  - rewrite (Fail k) by now left. apply IH. intros K I. apply Fail. now right.
Qed.

Lemma rejected_all :
  forall db c keys e,
    (forall K, In K keys -> is_ok (decrypt c (Some K) db) = false) ->
    is_ok (decrypt c (Some e) db) = true ->
    rejected db c (keys ++ [e]) = keys.
Proof.
  intros db c keys e Fail T. induction keys as [|k keys IH]; simpl.
  - now rewrite T.
  - rewrite (Fail k) by now left. f_equal. apply IH.
    intros K I. apply Fail. now right.
Qed.

(** X18: a lost credential is recovered by admitting its key: when no key
    of the store decrypts a credential that has at most one association
    pointing outside the store's keys, and [create] persists a key that does
    decrypt it, the next [resync] leaves the credential exactly one
    association, with the new key, and clears its flag. *)
Theorem create_then_resync :
  forall h p db c e db1,
    NoDup (map Credential.id (repo_Credential db)) ->
    In c (repo_Credential db) ->
    (forall K, In K (repo_Encryption db) ->
               is_ok (decrypt c (Some K) db) = false) ->
    (List.length
       (filter (points_outside (repo_Encryption db))
          (encryptionCredential.findByCredentialId (Credential.id c) db))
     <= 1)%nat ->
    create h p db = OK (e, db1) ->
    is_ok (decrypt c (Some e) db1) = true ->
    exists db2,
      resync db1 = OK db2
      /\ encryptionCredential.findByCredentialId (Credential.id c) db2
         = [EncryptionCredential.mk (Encryption.id e) (Credential.id c)]
      /\ lostFlag (Credential.id c) db2 = Some false.
Proof.
  intros h p db c e db1 ND Ic Fail Len C D.
  assert (E1 : db1 = set_encryption (repo_Encryption db ++ [e]) db).
  { unfold create in C. destruct (falsy (partial_name p)); simpl in C;
      [discriminate|]. now injection C as <- <-. }
  subst db1. simpl in *.
  set (db1 := set_encryption (repo_Encryption db ++ [e]) db) in *.
  destruct (resync_one_credential db1 c ND Ic) as (db2 & R & _ & Rows & Flag).
  destruct (lostFlag_present c db1 Ic) as [lost0 L0].
  exists db2. split; [exact R|].
  assert (F : find (fun k => is_ok (decrypt c (Some k) db1)) (repo_Encryption db1)
              = Some e).
  { apply find_after_rejected; auto. }
  split.
  - rewrite Rows, associations_after_spec, F.
    change (repo_Encryption db1) with (repo_Encryption db ++ [e]).
    rewrite rejected_all by auto.
    change (encryptionCredential.findByCredentialId (Credential.id c) db1)
      with (encryptionCredential.findByCredentialId (Credential.id c) db).
    destruct (filter _ _) as [|r [|r' kept]] eqn:Kept; simpl in Len; try lia; auto.
    assert (Ir : In r (filter (points_outside (repo_Encryption db))
                   (encryptionCredential.findByCredentialId (Credential.id c) db)))
      by (rewrite Kept; now left).
    apply filter_In in Ir. destruct Ir as [Ir _].
    now rewrite (findByCredentialId_owner _ _ _ Ir).
  - pose proof (existsb_find _ _ e F) as X.
    rewrite Flag. destruct (repo_Encryption db1) as [|k ks]; [discriminate X|].
    now rewrite X, L0.
Qed.

End CredentialCipher.

(** ** Properties of [get] on a credential *)

Lemma joined_keys :
  forall cid db,
    In cid (map Credential.id (repo_Credential db)) ->
    encryptions_of_credential cid db = associated_keys cid db.
Proof.
  intros cid db I. unfold encryptions_of_credential, associated_keys.
  apply filter_ext. intros e.
  induction (repo_EncryptionCredential db) as [|r rows IH]; simpl; auto.
  rewrite (joined_credential cid _ _ I), IH. f_equal. apply andb_comm.
Qed.

Lemma associated_keys_row :
  forall cid db e,
    In e (associated_keys cid db) ->
    In e (repo_Encryption db)
    /\ In (EncryptionCredential.mk (Encryption.id e) cid)
         (repo_EncryptionCredential db).
Proof.
  intros cid db e I. unfold associated_keys in I. apply filter_In in I.
  destruct I as [I X]. split; [exact I|].
  apply existsb_exists in X. destruct X as (r & Ir & X).
  apply andb_true_iff in X. destruct X as [X1 X2].
  apply String.eqb_eq in X1, X2. destruct r as [eid rid]. simpl in *.
  now subst.
Qed.

(** C4: for a credential of the [credential] table, [get(credential)] goes
    by the number of keys of the store that its association rows point at:
    with none it fails with the "encryption is lost" error, with exactly one
    it returns that key, and with more than one it fails with the "multiple
    encryptions" error. *)
Theorem get_credential_trichotomy :
  forall credential db,
    In (Credential.id credential) (map Credential.id (repo_Credential db)) ->
    (List.length (associated_keys (Credential.id credential) db) = 0%nat ->
     get (Some credential) db
     = Throw (InternalFlowiseError INTERNAL_SERVER_ERROR
                ("Error: encryptionService.get - credentialId: "
                 ++ Credential.id credential ++ "'s encryption is lost")))
    /\ (List.length (associated_keys (Credential.id credential) db) = 1%nat ->
        exists e,
          associated_keys (Credential.id credential) db = [e]
          /\ In e (repo_Encryption db)
          /\ In (EncryptionCredential.mk (Encryption.id e)
                   (Credential.id credential))
               (repo_EncryptionCredential db)
          /\ get (Some credential) db = OK e)
    /\ ((List.length (associated_keys (Credential.id credential) db) > 1)%nat ->
        get (Some credential) db
        = Throw (InternalFlowiseError INTERNAL_SERVER_ERROR
                   ("Error: encryptionService.get - credentialId: "
                    ++ Credential.id credential ++ " have multiple encryptions"))).
Proof.
  intros credential db I. unfold get.
  rewrite (joined_keys _ _ I).
  pose proof (associated_keys_row (Credential.id credential) db) as Row.
  destruct (associated_keys (Credential.id credential) db) as [|e [|e' rest]];
    simpl; split; [|split| |split| |split]; intros H;
    try discriminate; try lia; try reflexivity.
  exists e. destruct (Row e) as [Ie Ir]; [now left|]. auto.
Qed.

(** ** Properties of [create] and [generate] *)

Lemma toString_nonempty : forall n, (toString n =? "") = false.
Proof.
  intros n. unfold toString.
  destruct (Nat.to_uint n) eqn:E; try reflexivity.
  pose proof (DecimalNat.Unsigned.of_to n) as O. rewrite E in O. simpl in O.
  subst n. discriminate.
Qed.

Lemma base64_nonempty :
  forall bytes, bytes <> [] -> (base64 bytes =? "") = false.
Proof.
  intros [|a [|b [|c rest]]] NE; try congruence; reflexivity.
Qed.

Lemma randomBytes_length : forall size h, List.length (randomBytes size h) = size.
Proof.
  intros. unfold randomBytes. now rewrite length_map, length_seq.
Qed.

Lemma generated_key_nonempty :
  forall h, (base64 (randomBytes 24 h) =? "") = false.
Proof. intros h. reflexivity. Qed.

(** C9: [create] fails exactly when the name is missing (undefined or the
    empty string, what [!encryption.name] tests), with the validation
    error; otherwise it persists one row, whose key is the base64 text of 24
    random bytes when the key was missing and the given key otherwise, and
    is never empty. *)
Theorem create_validation :
  forall h p db,
    ((exists err, create h p db = Throw err)
     <-> partial_name p = None \/ partial_name p = Some "")
    /\ (falsy (partial_name p) = true ->
        create h p db
        = Throw (InternalFlowiseError INTERNAL_SERVER_ERROR
                   ("Error: encryptionService.create - "
                    ++ "Please provide a name for this encryption.")))
    /\ (forall e db',
          create h p db = OK (e, db') ->
          db' = set_encryption (repo_Encryption db ++ [e]) db
          /\ Encryption.name e = partial_name p
          /\ Encryption.encryptionKey e <> ""
          /\ (falsy (partial_encryptionKey p) = true ->
              Encryption.encryptionKey e = base64 (randomBytes 24 h)
              /\ List.length (randomBytes 24 h) = 24%nat)
          /\ (forall k, partial_encryptionKey p = Some k -> k <> "" ->
                        Encryption.encryptionKey e = k)).
Proof.
  intros h p db. unfold create.
  destruct p as [[name|] key]; simpl.
  2:{ repeat split; eauto; try discriminate. }
  destruct (String.eqb_spec name "") as [->|N]; simpl.
  - repeat split; eauto; try discriminate.
  - split.
    { split; [intros [err X]; discriminate|].
      intros [X|X]; [discriminate|]. congruence. }
    split; [discriminate|].
    intros e db' X. injection X as <- <-. simpl.
    split; [reflexivity|]. split; [reflexivity|].
    destruct key as [k|]; simpl.
    + destruct (String.eqb_spec k "") as [->|K].
      * split; [discriminate|]. split; [auto|]. intros k' X. injection X as <-.
        congruence.
      * split; [assumption|]. split; [discriminate|].
        intros k' X. now injection X as <-.
    + split; [discriminate|]. split; [auto|]. discriminate.
Qed.

Lemma create_named :
  forall h n key db,
    create h (mkPartial (Some (toString n)) key) db
    = let e :=
        Encryption.mk (uuid h) (Some (toString n))
          (match key with
           | Some k => if falsy (Some k) then base64 (randomBytes 24 h) else k
           | None => base64 (randomBytes 24 h)
           end)
          (Some (now h)) in
      OK (e, set_encryption (repo_Encryption db ++ [e]) db).
Proof.
  intros h n key db. unfold create. simpl. now rewrite toString_nonempty.
Qed.

Lemma insertLegacyEncryption_eq :
  forall h keys SECRETKEY n db,
    insertLegacyEncryption h keys SECRETKEY (n, db)
    = if negb (SECRETKEY =? "") && negb (existsb (String.eqb SECRETKEY) keys)
      then OK (n + 1,
               set_encryption
                 (repo_Encryption db
                  ++ [Encryption.mk (uuid h) (Some (toString (n + 1))) SECRETKEY
                        (Some (now h))]) db)
      else OK (n, db).
Proof.
  intros h keys S n db. unfold insertLegacyEncryption.
  destruct (S =? "") eqn:E; simpl; auto.
  destruct (existsb _ _); simpl; auto.
  rewrite create_named. simpl. now rewrite E.
Qed.

Lemma get_nonempty :
  forall db, repo_Encryption db <> [] -> exists e, get None db = OK e.
Proof.
  intros db NE. rewrite get_latest.
  destruct (order_updatedDate_DESC_head _ NE) as (row & rest & S & _).
  rewrite S. eauto.
Qed.

Lemma get_empty :
  forall db, repo_Encryption db = [] -> exists err, get None db = Throw err.
Proof.
  intros db E. rewrite get_latest, E. simpl. eauto.
Qed.

Lemma includes_In :
  forall s keys, existsb (String.eqb s) keys = true <-> In s keys.
Proof.
  intros s keys. rewrite existsb_exists. split.
  - intros (x & I & E). apply String.eqb_eq in E. now subst.
  - intros I. exists s. split; auto. apply String.eqb_refl.
Qed.

(** One admission step: the rows it leaves extend those it found, and its
    candidate is empty, known before, or among the rows it leaves. *)
Lemma insertLegacyEncryption_covers :
  forall h keys SECRETKEY n db,
    exists n' rows,
      insertLegacyEncryption h keys SECRETKEY (n, db)
      = OK (n', set_encryption (repo_Encryption db ++ rows) db)
      /\ (SECRETKEY = "" \/ In SECRETKEY keys
          \/ In SECRETKEY (map Encryption.encryptionKey rows)).
Proof.
  intros h keys S n db. rewrite insertLegacyEncryption_eq.
  destruct (String.eqb_spec S "") as [->|N]; simpl.
  - exists n, []. rewrite app_nil_r. destruct db; auto.
  - destruct (existsb _ _) eqn:X; simpl.
    + exists n, []. rewrite app_nil_r. apply includes_In in X. destruct db; auto.
    + eexists _, [_]. split; [reflexivity|]. simpl. auto.
Qed.

Lemma insertLegacyEncryption_skip :
  forall h keys SECRETKEY n db,
    SECRETKEY = "" \/ In SECRETKEY keys ->
    insertLegacyEncryption h keys SECRETKEY (n, db) = OK (n, db).
Proof.
  intros h keys S n db H. rewrite insertLegacyEncryption_eq.
  destruct H as [->|I]; simpl; auto.
  apply includes_In in I. rewrite I. now rewrite andb_false_r.
Qed.

(** What [generate] leaves: the rows it found, extended, never empty, and
    holding each non-empty candidate. *)
Lemma generate_covers :
  forall h1 h2 h3 overwrite readFile db,
    exists e rows,
      generate h1 h2 h3 overwrite readFile db
      = OK (e, set_encryption (repo_Encryption db ++ rows) db)
      /\ repo_Encryption db ++ rows <> []
      /\ forall S,
           S = match readFile with Some s => s | None => "" end
           \/ S = match overwrite with
                  | Some s => if negb (s =? "") then s else ""
                  | None => ""
                  end ->
           S = "" \/ In S (map Encryption.encryptionKey (repo_Encryption db ++ rows)).
Proof.
  intros h1 h2 h3 overwrite readFile db. unfold generate.
  set (S2 := match overwrite with
             | Some s => if negb (s =? "") then s else ""
             | None => ""
             end).
  set (S1 := match readFile with Some s => s | None => "" end).
  set (keys := map Encryption.encryptionKey (repo_Encryption db)).
  destruct (insertLegacyEncryption_covers h1 keys S1 (List.length keys) db)
    as (n1 & rows1 & E1 & C1).
  rewrite E1. cbn [bind].
  set (db1 := set_encryption (repo_Encryption db ++ rows1) db).
  destruct (insertLegacyEncryption_covers h2 keys S2 n1 db1)
    as (n2 & rows2 & E2 & C2).
  rewrite E2. cbn [bind].
  set (db2 := set_encryption (repo_Encryption db1 ++ rows2) db1).
  assert (D2 : db2 = set_encryption (repo_Encryption db ++ rows1 ++ rows2) db)
    by (unfold db2, db1, set_encryption; simpl; now rewrite app_assoc).
  assert (Cover : forall rows3 S, S = S1 \/ S = S2 ->
            S = ""
            \/ In S (map Encryption.encryptionKey
                       (repo_Encryption db ++ (rows1 ++ rows2) ++ rows3))).
  { intros rows3 S HS. rewrite !map_app. fold keys.
    destruct HS as [->| ->]; [destruct C1 as [?|[?|?]]|destruct C2 as [?|[?|?]]];
      auto; right; rewrite !in_app_iff; auto. }
  destruct (repo_Encryption db2) as [|x xs] eqn:R2.
  - destruct (get_empty db2 R2) as [err G]. rewrite G.
    rewrite create_named. cbv zeta.
    eexists _, ((rows1 ++ rows2) ++ [_]). split.
    + rewrite D2. unfold set_encryption. simpl. rewrite <- !app_assoc. reflexivity.
    + split; [|apply Cover].
      rewrite !app_assoc. intro X. apply app_eq_nil in X. destruct X; discriminate.
  - destruct (get_nonempty db2) as [e G]; [congruence|]. rewrite G.
    exists e, (rows1 ++ rows2). split.
    + now rewrite D2.
    + split.
      * rewrite D2 in R2. simpl in R2. congruence.
      * intros S HS. specialize (Cover [] S HS). now rewrite app_nil_r in Cover.
Qed.

(** C6: [generate] returns, and the store it leaves holds at least one
    key; with no override key, no legacy key file and an empty store, that
    key is a new one named "1" whose key is the base64 text of 24 random
    bytes. *)
Theorem generate_at_least_one_key :
  forall h1 h2 h3 overwrite readFile db,
    (exists e db',
        generate h1 h2 h3 overwrite readFile db = OK (e, db')
        /\ repo_Encryption db' <> [])
    /\ (falsy overwrite = true -> falsy readFile = true ->
        repo_Encryption db = [] ->
        generate h1 h2 h3 overwrite readFile db
        = OK (Encryption.mk (uuid h3) (Some "1") (base64 (randomBytes 24 h3))
                (Some (now h3)),
              set_encryption
                [Encryption.mk (uuid h3) (Some "1") (base64 (randomBytes 24 h3))
                   (Some (now h3))] db)
        /\ List.length (randomBytes 24 h3) = 24%nat
        /\ (base64 (randomBytes 24 h3) =? "") = false).
Proof.
  intros h1 h2 h3 overwrite readFile db. split.
  - destruct (generate_covers h1 h2 h3 overwrite readFile db)
      as (e & rows & G & NE & _).
    eauto.
  - intros O F E. split; [|split; [apply randomBytes_length|reflexivity]].
    unfold generate.
    assert (S2 : match overwrite with
                 | Some s => if negb (s =? "") then s else ""
                 | None => ""
                 end = "").
    { destruct overwrite as [s|]; simpl in *; auto. now rewrite O. }
    assert (S1 : match readFile with Some s => s | None => "" end = "").
    { destruct readFile as [s|]; simpl in *; auto. now apply String.eqb_eq. }
    rewrite S1, S2, E. simpl.
    destruct (get_empty db E) as [err G]. rewrite G.
    unfold create. simpl. now rewrite E.
Qed.

(** C7: a second [generate], under the same override key and the same
    legacy key file, on the store the first one left, admits no key: it
    returns the latest key and leaves the store as it found it. *)
Theorem generate_idempotent :
  forall h1 h2 h3 k1 k2 k3 overwrite readFile db e db',
    generate h1 h2 h3 overwrite readFile db = OK (e, db') ->
    exists e',
      get None db' = OK e'
      /\ generate k1 k2 k3 overwrite readFile db' = OK (e', db').
Proof.
  intros h1 h2 h3 k1 k2 k3 overwrite readFile db e db' G.
  destruct (generate_covers h1 h2 h3 overwrite readFile db)
    as (e0 & rows & G0 & NE & Cover).
  rewrite G0 in G. injection G as <- <-.
  set (db' := set_encryption (repo_Encryption db ++ rows) db) in *.
  destruct (get_nonempty db') as [e' Get]; [exact NE|].
  exists e'. split; [exact Get|].
  unfold generate. cbv zeta.
  rewrite insertLegacyEncryption_skip by (apply Cover; now left).
  cbn [bind].
  rewrite insertLegacyEncryption_skip by (apply Cover; now right).
  cbn [bind]. now rewrite Get.
Qed.

(** C3 (the code at the failing input): with the same text in the legacy
    key file and in the override key, on an empty store, [generate] admits
    it twice, as the keys named "1" and "2". *)
Theorem generate_same_key_twice :
  forall h1 h2 h3,
    exists e,
      generate h1 h2 h3 (Some "secret") (Some "secret") (mkDb [] [] [])
      = OK (e, mkDb [Encryption.mk (uuid h1) (Some "1") "secret" (Some (now h1));
                     Encryption.mk (uuid h2) (Some "2") "secret" (Some (now h2))]
                 [] []).
Proof.
  intros h1 h2 h3. unfold generate. simpl.
  rewrite get_latest. simpl.
  destruct (now h2 <=? now h1)%Z; eexists; reflexivity.
Qed.

(** ** Further properties of [get], [create] and [generate] *)

(** X10: a key [get(credential)] returns is a row of the [encryption]
    table, joined by an association to the credential, whose id is that of a
    row of the [credential] table. *)
Theorem get_credential_sound :
  forall c db e,
    get (Some c) db = OK e ->
    In e (repo_Encryption db)
    /\ In (EncryptionCredential.mk (Encryption.id e) (Credential.id c))
         (repo_EncryptionCredential db)
    /\ In (Credential.id c) (map Credential.id (repo_Credential db)).
Proof.
  intros c db e G. unfold get in G.
  destruct (encryptions_of_credential (Credential.id c) db) as [|e0 [|e1 rest]] eqn:J;
    simpl in G; try discriminate.
  injection G as <-.
  assert (I : In e0 (encryptions_of_credential (Credential.id c) db))
    by (rewrite J; now left).
  unfold encryptions_of_credential in I. apply filter_In in I.
  destruct I as [I0 X]. split; [exact I0|].
  apply existsb_exists in X. destruct X as (ec & Iec & X).
  apply andb_true_iff in X. destruct X as [X1 X2].
  apply existsb_exists in X2. destruct X2 as (c' & Ic' & X2).
  apply andb_true_iff in X2. destruct X2 as [X2 X3].
  apply String.eqb_eq in X1, X2, X3. split.
  - destruct ec as [eid cid]. simpl in *. subst eid. rewrite X2, X3 in Iec.
    exact Iec.
  - rewrite <- X3. now apply in_map.
Qed.

Lemma order_updatedDate_DESC_nil :
  forall rows, order_updatedDate_DESC rows = [] -> rows = [].
Proof.
  intros [|x rows] E; auto.
  assert (I : In x (order_updatedDate_DESC (x :: rows)))
    by (apply order_updatedDate_DESC_In; now left).
  rewrite E in I. destruct I.
Qed.

(** [generate] in one piece: the rows its two admissions add, then the
    latest key, or a fresh one on a store that is still empty. *)
Lemma generate_eq :
  forall h1 h2 h3 overwrite readFile db,
    generate h1 h2 h3 overwrite readFile db
    = let S2 := match overwrite with
                | Some s => if negb (s =? "") then s else ""
                | None => ""
                end in
      let S1 := match readFile with Some s => s | None => "" end in
      let keys := map Encryption.encryptionKey (repo_Encryption db) in
      let n0 := List.length keys in
      let a1 := negb (S1 =? "") && negb (existsb (String.eqb S1) keys) in
      let a2 := negb (S2 =? "") && negb (existsb (String.eqb S2) keys) in
      let rows1 :=
        if a1
        then [Encryption.mk (uuid h1) (Some (toString (n0 + 1))) S1 (Some (now h1))]
        else [] in
      let n1 := if a1 then n0 + 1 else n0 in
      let rows2 :=
        if a2
        then [Encryption.mk (uuid h2) (Some (toString (n1 + 1))) S2 (Some (now h2))]
        else [] in
      let n2 := if a2 then n1 + 1 else n1 in
      let rows := repo_Encryption db ++ rows1 ++ rows2 in
      match order_updatedDate_DESC rows with
      | row :: _ => OK (select_id_encryptionKey row, set_encryption rows db)
      | [] =>
          let e := Encryption.mk (uuid h3) (Some (toString (n2 + 1)))
                     (base64 (randomBytes 24 h3)) (Some (now h3)) in
          OK (e, set_encryption (rows ++ [e]) db)
      end.
Proof.
  intros h1 h2 h3 overwrite readFile [ks cs rs]. unfold generate. cbv zeta.
  rewrite insertLegacyEncryption_eq.
  destruct (negb _ && negb _); cbn [bind];
    rewrite insertLegacyEncryption_eq;
    destruct (negb _ && negb _); cbn [bind];
    rewrite get_latest; cbn [repo_Encryption set_encryption];
    rewrite ?app_nil_r, <- ?app_assoc; cbn [app];
    match goal with
    | |- context [order_updatedDate_DESC ?l] =>
        destruct (order_updatedDate_DESC l); cbn [try_catch];
          [rewrite create_named; cbv zeta;
           cbn [repo_Encryption repo_Credential repo_EncryptionCredential
                set_encryption try_catch];
           rewrite <- ?app_assoc; reflexivity
          |reflexivity]
    end.
Qed.

Lemma order_updatedDate_DESC_cons :
  forall rows,
    rows <> [] ->
    exists row rest, order_updatedDate_DESC rows = row :: rest.
Proof.
  intros rows NE. destruct (order_updatedDate_DESC rows) as [|row rest] eqn:O.
  - apply order_updatedDate_DESC_nil in O. contradiction.
  - eauto.
Qed.

Lemma get_select :
  forall db row rest,
    order_updatedDate_DESC (repo_Encryption db) = row :: rest ->
    get None db = OK (select_id_encryptionKey (select_id_encryptionKey row)).
Proof.
  intros db row rest O. rewrite get_latest, O. reflexivity.
Qed.

(** The shape of what [generate] returns: the new rows, how they are named,
    where their keys come from, and that the key returned is the latest of
    the store returned. *)
Lemma generate_shape :
  forall h1 h2 h3 overwrite readFile db,
    exists e rows,
      generate h1 h2 h3 overwrite readFile db
      = OK (e, set_encryption (repo_Encryption db ++ rows) db)
      /\ (List.length rows <= 2)%nat
      /\ map Encryption.name rows
         = map (fun i => Some (toString i))
             (seq (List.length (repo_Encryption db) + 1) (List.length rows))
      /\ (forall r, In r rows -> Encryption.encryptionKey r <> "")
      /\ (forall r, In r rows ->
            (Some (Encryption.encryptionKey r) = readFile
             \/ Some (Encryption.encryptionKey r) = overwrite)
            \/ (repo_Encryption db = []
                /\ falsy readFile = true /\ falsy overwrite = true
                /\ Encryption.encryptionKey r = base64 (randomBytes 24 h3)))
      /\ get None (set_encryption (repo_Encryption db ++ rows) db)
         = OK (select_id_encryptionKey e).
Proof.
  intros h1 h2 h3 overwrite readFile db. rewrite generate_eq. cbv zeta.
  rewrite length_map.
  set (k3 := base64 (randomBytes 24 h3)).
  assert (N3 : k3 <> "") by (unfold k3; discriminate).
  set (n0 := List.length (repo_Encryption db)).
  set (keys := map Encryption.encryptionKey (repo_Encryption db)).
  set (S1 := match readFile with Some s => s | None => "" end).
  set (S2 := match overwrite with
             | Some s => if negb (s =? "") then s else ""
             | None => ""
             end).
  assert (F1 : S1 <> "" -> Some S1 = readFile).
  { unfold S1. destruct readFile; congruence. }
  assert (F2 : S2 <> "" -> Some S2 = overwrite).
  { unfold S2. destruct overwrite as [s|]; [|congruence].
    destruct (s =? ""); simpl; congruence. }
  assert (E1 : (S1 =? "") = true -> falsy readFile = true).
  { unfold S1. destruct readFile; simpl; auto. }
  assert (E2 : (S2 =? "") = true -> falsy overwrite = true).
  { unfold S2. destruct overwrite as [s|]; simpl; auto.
    destruct (s =? "") eqn:Q; simpl; rewrite ?Q; auto. }
  destruct (S1 =? "") eqn:Z1; destruct (S2 =? "") eqn:Z2; cbn [negb andb app];
    try (apply String.eqb_neq in Z1); try (apply String.eqb_neq in Z2).
  - (* no candidate *)
    rewrite ?app_nil_r.
    destruct (order_updatedDate_DESC (repo_Encryption db)) as [|row rest] eqn:O.
    + apply order_updatedDate_DESC_nil in O.
      eexists _, [_]. split; [rewrite O; reflexivity|].
      rewrite O. simpl. repeat split; auto.
      * intros r [<-|[]]. exact N3.
      * intros r [<-|[]]. right. auto.
    + exists (select_id_encryptionKey row), [].
      rewrite ?app_nil_r. simpl. repeat split; auto; try tauto.
      rewrite get_latest. simpl. rewrite O. reflexivity.
  - (* the override key alone *)
    destruct (existsb (String.eqb S2) keys) eqn:X2; cbn [negb andb app].
    + rewrite ?app_nil_r.
      destruct (order_updatedDate_DESC (repo_Encryption db)) as [|row rest] eqn:O.
      * apply order_updatedDate_DESC_nil in O. unfold keys in X2.
        rewrite O in X2. discriminate.
      * exists (select_id_encryptionKey row), [].
        rewrite ?app_nil_r. simpl. repeat split; auto; try tauto.
        rewrite get_latest. simpl. rewrite O. reflexivity.
    + destruct (order_updatedDate_DESC_cons
                  (repo_Encryption db
                   ++ [Encryption.mk (uuid h2) (Some (toString (n0 + 1))) S2
                         (Some (now h2))])) as (row & rest & O).
      { intro X. apply app_eq_nil in X. destruct X; discriminate. }
      rewrite O. eexists _, [_]. split; [reflexivity|].
      simpl. repeat split; auto.
      * intros r [<-|[]]. exact Z2.
      * intros r [<-|[]]. left. right. now apply F2.
      * rewrite get_latest. simpl. rewrite O. reflexivity.
  - (* the legacy key alone *)
    destruct (existsb (String.eqb S1) keys) eqn:X1; cbn [negb andb app].
    + rewrite ?app_nil_r.
      destruct (order_updatedDate_DESC (repo_Encryption db)) as [|row rest] eqn:O.
      * apply order_updatedDate_DESC_nil in O. unfold keys in X1.
        rewrite O in X1. discriminate.
      * exists (select_id_encryptionKey row), [].
        rewrite ?app_nil_r. simpl. repeat split; auto; try tauto.
        rewrite get_latest. simpl. rewrite O. reflexivity.
    + rewrite ?app_nil_r.
      destruct (order_updatedDate_DESC_cons
                  (repo_Encryption db
                   ++ [Encryption.mk (uuid h1) (Some (toString (n0 + 1))) S1
                         (Some (now h1))])) as (row & rest & O).
      { intro X. apply app_eq_nil in X. destruct X; discriminate. }
      rewrite O. eexists _, [_]. split; [reflexivity|].
      simpl. repeat split; auto.
      * intros r [<-|[]]. exact Z1.
      * intros r [<-|[]]. left. left. now apply F1.
      * rewrite get_latest. simpl. rewrite O. reflexivity.
  - (* both candidates *)
    destruct (existsb (String.eqb S1) keys) eqn:X1;
      destruct (existsb (String.eqb S2) keys) eqn:X2; cbn [negb andb app];
      rewrite ?app_nil_r.
    + destruct (order_updatedDate_DESC (repo_Encryption db)) as [|row rest] eqn:O.
      * apply order_updatedDate_DESC_nil in O. unfold keys in X1.
        rewrite O in X1. discriminate.
      * exists (select_id_encryptionKey row), [].
        rewrite ?app_nil_r. simpl. repeat split; auto; try tauto.
        rewrite get_latest. simpl. rewrite O. reflexivity.
    + destruct (order_updatedDate_DESC_cons
                  (repo_Encryption db
                   ++ [Encryption.mk (uuid h2) (Some (toString (n0 + 1))) S2
                         (Some (now h2))])) as (row & rest & O).
      { intro X. apply app_eq_nil in X. destruct X; discriminate. }
      rewrite O. eexists _, [_]. split; [reflexivity|].
      simpl. repeat split; auto.
      * intros r [<-|[]]. exact Z2.
      * intros r [<-|[]]. left. right. now apply F2.
      * rewrite get_latest. simpl. rewrite O. reflexivity.
    + destruct (order_updatedDate_DESC_cons
                  (repo_Encryption db
                   ++ [Encryption.mk (uuid h1) (Some (toString (n0 + 1))) S1
                         (Some (now h1))])) as (row & rest & O).
      { intro X. apply app_eq_nil in X. destruct X; discriminate. }
      rewrite O. eexists _, [_]. split; [reflexivity|].
      simpl. repeat split; auto.
      * intros r [<-|[]]. exact Z1.
      * intros r [<-|[]]. left. left. now apply F1.
      * rewrite get_latest. simpl. rewrite O. reflexivity.
    + destruct (order_updatedDate_DESC_cons
                  (repo_Encryption db
                   ++ [Encryption.mk (uuid h1) (Some (toString (n0 + 1))) S1
                         (Some (now h1));
                       Encryption.mk (uuid h2) (Some (toString (n0 + 1 + 1))) S2
                         (Some (now h2))])) as (row & rest & O).
      { intro X. apply app_eq_nil in X. destruct X; discriminate. }
      rewrite O. eexists _, [_; _]. split; [reflexivity|].
      simpl. repeat split; auto.
      * now rewrite (Nat.add_1_r (n0 + 1)).
      * intros r [<-|[<-|[]]]; assumption.
      * intros r [<-|[<-|[]]]; left; [left; now apply F1|right; now apply F2].
      * rewrite get_latest. simpl. rewrite O. reflexivity.
Qed.

(** X11: [generate] only adds keys: the store it returns holds the rows of
    the [encryption] table it found, in place, followed by at most two new
    ones, and the other two tables as they were. *)
Theorem generate_appends :
  forall h1 h2 h3 overwrite readFile db e db',
    generate h1 h2 h3 overwrite readFile db = OK (e, db') ->
    exists rows,
      repo_Encryption db' = repo_Encryption db ++ rows
      /\ (List.length rows <= 2)%nat
      /\ repo_Credential db' = repo_Credential db
      /\ repo_EncryptionCredential db' = repo_EncryptionCredential db.
Proof.
  intros h1 h2 h3 overwrite readFile db e db' G.
  destruct (generate_shape h1 h2 h3 overwrite readFile db)
    as (e0 & rows & G0 & Len & _).
  rewrite G0 in G. injection G as <- <-.
  exists rows. repeat split; auto.
Qed.

(** X12: after [generate], the text of the legacy key file and the override
    key, each when it is not empty, are keys of the store. *)
Theorem generate_admits_candidates :
  forall h1 h2 h3 overwrite readFile db e db',
    generate h1 h2 h3 overwrite readFile db = OK (e, db') ->
    (forall s, readFile = Some s -> s <> "" ->
               In s (map Encryption.encryptionKey (repo_Encryption db')))
    /\ (forall s, overwrite = Some s -> s <> "" ->
                  In s (map Encryption.encryptionKey (repo_Encryption db'))).
Proof.
  intros h1 h2 h3 overwrite readFile db e db' G.
  destruct (generate_covers h1 h2 h3 overwrite readFile db)
    as (e0 & rows & G0 & _ & Cover).
  rewrite G0 in G. injection G as <- <-. simpl. split.
  - intros s -> N. destruct (Cover s) as [E|I]; [now left|contradiction|exact I].
  - intros s -> N. destruct (Cover s) as [E|I]; [|contradiction|exact I].
    right. apply String.eqb_neq in N. now rewrite N.
Qed.

(** X13: [generate] keeps the keys of the store non-empty: if no row had an
    empty key before, none has one after. *)
Theorem generate_keeps_keys_nonempty :
  forall h1 h2 h3 overwrite readFile db e db',
    (forall r, In r (repo_Encryption db) -> Encryption.encryptionKey r <> "") ->
    generate h1 h2 h3 overwrite readFile db = OK (e, db') ->
    forall r, In r (repo_Encryption db') -> Encryption.encryptionKey r <> "".
Proof.
  intros h1 h2 h3 overwrite readFile db e db' Inv G.
  destruct (generate_shape h1 h2 h3 overwrite readFile db)
    as (e0 & rows & G0 & _ & _ & NE & _).
  rewrite G0 in G. injection G as <- <-. simpl.
  intros r I. apply in_app_or in I. destruct I as [I|I]; auto.
Qed.

Lemma toString_injective :
  forall a b, toString a = toString b -> a = b.
Proof.
  intros a b E. unfold toString in E.
  apply DecimalNat.Unsigned.to_uint_inj.
  pose proof (NilEmpty.usu (Nat.to_uint a)) as Ua.
  pose proof (NilEmpty.usu (Nat.to_uint b)) as Ub.
  rewrite E in Ua. rewrite Ua in Ub. now injection Ub.
Qed.

Lemma names_distinct :
  forall start len,
    NoDup (map (fun i => Some (toString i)) (seq start len)).
Proof.
  intros start len. revert start.
  induction len as [|len IH]; intros start; simpl; constructor; auto.
  intros I. apply in_map_iff in I. destruct I as (j & E & I).
  injection E as E. apply toString_injective in E. subst j.
  apply in_seq in I. lia.
Qed.

(** X14: [generate] keeps the numbering of the keys: if the rows of the
    store are named 1, 2, ... in table order, so are the rows of the store it
    returns, and their names are then pairwise distinct. *)
Theorem generate_names :
  forall h1 h2 h3 overwrite readFile db e db',
    map Encryption.name (repo_Encryption db)
    = map (fun i => Some (toString i)) (seq 1 (List.length (repo_Encryption db))) ->
    generate h1 h2 h3 overwrite readFile db = OK (e, db') ->
    map Encryption.name (repo_Encryption db')
    = map (fun i => Some (toString i)) (seq 1 (List.length (repo_Encryption db')))
    /\ NoDup (map Encryption.name (repo_Encryption db')).
Proof.
  intros h1 h2 h3 overwrite readFile db e db' Inv G.
  destruct (generate_shape h1 h2 h3 overwrite readFile db)
    as (e0 & rows & G0 & _ & Names & _).
  rewrite G0 in G. injection G as <- <-. simpl.
  assert (Seq : map Encryption.name (repo_Encryption db ++ rows)
                = map (fun i => Some (toString i))
                    (seq 1 (List.length (repo_Encryption db ++ rows)))).
  { rewrite map_app, length_app, seq_app, map_app, Inv, Names.
    now rewrite (Nat.add_comm 1 (List.length (repo_Encryption db))). }
  split; [exact Seq|]. rewrite Seq. apply names_distinct.
Qed.

(** X15: unless the store is empty and there is neither a legacy key nor
    an override key, [generate] draws no random key: every row it adds has
    the text of the legacy key file or the override key as its key. *)
Theorem generate_no_random_key :
  forall h1 h2 h3 overwrite readFile db e db',
    repo_Encryption db <> [] \/ falsy readFile = false \/ falsy overwrite = false ->
    generate h1 h2 h3 overwrite readFile db = OK (e, db') ->
    exists rows,
      repo_Encryption db' = repo_Encryption db ++ rows
      /\ forall r, In r rows ->
           Some (Encryption.encryptionKey r) = readFile
           \/ Some (Encryption.encryptionKey r) = overwrite.
Proof.
  intros h1 h2 h3 overwrite readFile db e db' H G.
  destruct (generate_shape h1 h2 h3 overwrite readFile db)
    as (e0 & rows & G0 & _ & _ & _ & From & _).
  rewrite G0 in G. injection G as <- <-.
  exists rows. split; [reflexivity|].
  intros r I. destruct (From r I) as [C|(E & F1 & F2 & _)]; [exact C|].
  destruct H as [H|[H|H]]; [contradiction|congruence|congruence].
Qed.

(** X16: on a store that holds a key, with a legacy key file and an
    override key that are each absent, empty or a key of the store already,
    [generate] changes nothing and returns the latest key. *)
Theorem generate_nothing_to_admit :
  forall h1 h2 h3 overwrite readFile db,
    repo_Encryption db <> [] ->
    (forall s, readFile = Some s ->
               s = "" \/ In s (map Encryption.encryptionKey (repo_Encryption db))) ->
    (forall s, overwrite = Some s ->
               s = "" \/ In s (map Encryption.encryptionKey (repo_Encryption db))) ->
    exists e,
      get None db = OK e
      /\ generate h1 h2 h3 overwrite readFile db = OK (e, db).
Proof.
  intros h1 h2 h3 overwrite readFile db NE F O.
  destruct (get_nonempty db NE) as [e Get].
  exists e. split; [exact Get|].
  unfold generate. cbv zeta.
  rewrite insertLegacyEncryption_skip.
  2:{ destruct readFile as [s|]; [now apply F|now left]. }
  cbn [bind]. rewrite insertLegacyEncryption_skip.
  2:{ destruct overwrite as [s|]; [|now left].
      destruct (String.eqb_spec s "") as [->|N]; simpl; [now left|now apply O]. }
  cbn [bind]. now rewrite Get.
Qed.

(** X17: when the key is missing, [create] persists a key of 32
    characters, whatever the entropy. *)
Theorem create_generated_key_length :
  forall h p db e db',
    falsy (partial_encryptionKey p) = true ->
    create h p db = OK (e, db') ->
    String.length (Encryption.encryptionKey e) = 32%nat.
Proof.
  intros h p db e db' F C. unfold create in C.
  destruct (falsy (partial_name p)); simpl in C; [discriminate|].
  injection C as <- _. simpl.
  destruct (partial_encryptionKey p) as [k|]; [|reflexivity].
  simpl in F |- *. rewrite F. reflexivity.
Qed.

(** ** [generate] before [encrypt] and [resync] *)

(** X19: the key [generate] returns is the key the next [encrypt] uses:
    on the store [generate] leaves, [get()] returns its id and key text and
    [encrypt] succeeds under it. *)
Theorem generate_then_encrypt :
  forall (ICredentialDataDecrypted : Type)
         (JSON_stringify : ICredentialDataDecrypted -> string)
         (AES_encrypt : string -> string -> string -> string)
         h1 h2 h3 overwrite readFile db e db' salt P,
    generate h1 h2 h3 overwrite readFile db = OK (e, db') ->
    get None db' = OK (select_id_encryptionKey e)
    /\ encrypt ICredentialDataDecrypted JSON_stringify AES_encrypt salt P db'
       = OK (select_id_encryptionKey e,
             AES_encrypt salt (JSON_stringify P) (Encryption.encryptionKey e)).
Proof.
  intros T JSON_stringify AES_encrypt h1 h2 h3 overwrite readFile db e db' salt P G.
  destruct (generate_shape h1 h2 h3 overwrite readFile db)
    as (e0 & rows & G0 & _ & _ & _ & _ & Get).
  rewrite G0 in G. injection G as <- <-.
  split; [exact Get|]. unfold encrypt. rewrite Get. reflexivity.
Qed.

(** X20: [init] returns, on a store with distinct credential ids, a store
    that holds at least one key and on which the flag of every credential is
    true exactly when no key of that store decrypts it. *)
Theorem init_settles :
  forall (ICredentialDataDecrypted : Type)
         (JSON_parse : string -> Result ICredentialDataDecrypted)
         (AES_decrypt : string -> string -> Result string)
         h1 h2 h3 overwrite readFile db c,
    NoDup (map Credential.id (repo_Credential db)) ->
    In c (repo_Credential db) ->
    exists db',
      init ICredentialDataDecrypted JSON_parse AES_decrypt
        h1 h2 h3 overwrite readFile db = OK db'
      /\ repo_Encryption db' <> []
      /\ lostFlag (Credential.id c) db'
         = Some (negb (existsb
                         (fun e =>
                            is_ok (decrypt ICredentialDataDecrypted JSON_parse
                                     AES_decrypt c (Some e) db'))
                         (repo_Encryption db'))).
Proof.
  intros T JSON_parse AES_decrypt h1 h2 h3 overwrite readFile db c ND Ic.
  destruct (generate_covers h1 h2 h3 overwrite readFile db)
    as (e & rows & G & NE & _).
  set (db1 := set_encryption (repo_Encryption db ++ rows) db) in *.
  destruct (resync_one_credential T JSON_parse AES_decrypt db1 c ND Ic)
    as (db' & R & Keys & _ & Flag).
  destruct (lostFlag_present c db1 Ic) as [lost0 L0].
  exists db'. split.
  - unfold init. rewrite G. cbn [bind]. rewrite R. reflexivity.
  - rewrite Keys. split; [exact NE|].
    rewrite Flag. change (repo_Encryption db1) with (repo_Encryption db ++ rows).
    destruct (repo_Encryption db ++ rows) as [|k ks] eqn:Ks; [now elim NE|].
    rewrite L0. reflexivity.
Qed.
(** ** The reference cipher round-trips *)

Lemma reference_strip_append :
  forall key rest text,
    Reference.strip (key ++ rest) (key ++ text) = Reference.strip rest text.
Proof.
  induction key as [|a key IH]; intros rest text; simpl; auto.
  now rewrite Ascii.eqb_refl.
Qed.

Lemma reference_AES_round_trip :
  forall salt message key,
    Reference.AES_decrypt (Reference.AES_encrypt salt message key) key = OK message.
Proof.
  intros salt message key. unfold Reference.AES_decrypt, Reference.AES_encrypt.
  now rewrite reference_strip_append.
Qed.

Lemma reference_JSON_round_trip :
  forall obj, Reference.JSON_parse (Reference.JSON_stringify obj) = OK obj.
Proof. reflexivity. Qed.

(** ** The properties on the sample stores *)

Ltac distinct_ids := repeat constructor; simpl; intuition discriminate.

(** Convergence on the store with keys K1 and K2, for the credential
    encrypted under K2 that still has an association with K1. *)
Lemma resync_convergence_witness :
  (List.length
     (filter
        (points_outside
           (rejected string Reference.JSON_parse Reference.AES_decrypt
              Scenario.db_stale (Scenario.sealed "c1" Scenario.K2 true)
              (repo_Encryption Scenario.db_stale)))
        (encryptionCredential.findByCredentialId "c1" Scenario.db_stale))
   <= 1)%nat
  /\ exists db' K1,
      resync string Reference.JSON_parse Reference.AES_decrypt Scenario.db_stale
      = OK db'
      /\ first_match string Reference.JSON_parse Reference.AES_decrypt
           Scenario.db_stale (Scenario.sealed "c1" Scenario.K2 true) = Some K1
      /\ In K1 (repo_Encryption db')
      /\ is_ok (decrypt string Reference.JSON_parse Reference.AES_decrypt
                  (Scenario.sealed "c1" Scenario.K2 true) (Some K1) db') = true
      /\ encryptionCredential.findByCredentialId "c1" db'
         = [EncryptionCredential.mk (Encryption.id K1) "c1"]
      /\ lostFlag "c1" db' = Some false
      /\ ((forall K',
              In K' (repo_Encryption Scenario.db_stale) ->
              is_ok (decrypt string Reference.JSON_parse Reference.AES_decrypt
                       (Scenario.sealed "c1" Scenario.K2 true) (Some K')
                       Scenario.db_stale) = true ->
              K' = Scenario.K2) ->
          K1 = Scenario.K2).
Proof.
  split; [vm_compute; lia|].
  apply (resync_convergence string Reference.JSON_stringify Reference.JSON_parse
           Reference.AES_encrypt Reference.AES_decrypt
           reference_AES_round_trip reference_JSON_round_trip
           Scenario.db_stale (Scenario.sealed "c1" Scenario.K2 true) Scenario.K2
           "salt" Scenario.payload).
  - distinct_ids.
  - simpl. auto.
  - simpl. auto.
  - reflexivity.
  - vm_compute. lia.
Defined.

(** C1 as stated fails on the store with keys K1, K2 and K3 where the
    credential encrypted under K1 has two associations, with K2 and with K3:
    K1 decrypts it at once, the two rows stay, and none points at K1. *)
Lemma resync_convergence_counterexample :
  In (Scenario.sealed "c1" Scenario.K1 true) (repo_Credential Scenario.db_ambiguous)
  /\ In Scenario.K1 (repo_Encryption Scenario.db_ambiguous)
  /\ Credential.encryptedData (Scenario.sealed "c1" Scenario.K1 true)
     = Reference.AES_encrypt "salt" (Reference.JSON_stringify Scenario.payload)
         (Encryption.encryptionKey Scenario.K1)
  /\ exists db',
      resync string Reference.JSON_parse Reference.AES_decrypt Scenario.db_ambiguous
      = OK db'
      /\ encryptionCredential.findByCredentialId "c1" db'
         = [EncryptionCredential.mk "e2" "c1"; EncryptionCredential.mk "e3" "c1"]
      /\ lostFlag "c1" db' = Some false.
Proof.
  repeat split; simpl; auto.
  eexists. repeat split; reflexivity.
Qed.

(** Lost detection on the store with keys K1 and K2, for the credential
    encrypted under a key that is gone. *)
Lemma resync_lost_detection_witness :
  repo_Encryption Scenario.db_lost <> []
  /\ exists db',
      resync string Reference.JSON_parse Reference.AES_decrypt Scenario.db_lost
      = OK db'
      /\ encryptionCredential.findByCredentialId "c1" db' = []
      /\ lostFlag "c1" db' = Some true.
Proof.
  split; [discriminate|].
  apply (resync_lost_detection string Reference.JSON_parse Reference.AES_decrypt
           Scenario.db_lost (Scenario.sealed "c1" Scenario.K0 false)).
  - distinct_ids.
  - simpl. auto.
  - discriminate.
  - simpl. intros K [<-|[<-|[]]]; reflexivity.
  - simpl. intros r [<-|[]]. exists Scenario.K1. simpl. auto.
Defined.

(** C2 as stated fails twice: on a store without keys the credential keeps
    the flag false (and its association), and an association with a key that
    is not in the store outlives the pass over the keys that are. *)
Lemma resync_lost_detection_counterexample :
  ((forall K, In K (repo_Encryption Scenario.db_no_keys) ->
              is_ok (decrypt string Reference.JSON_parse Reference.AES_decrypt
                       (Scenario.sealed "c1" Scenario.K0 false) (Some K)
                       Scenario.db_no_keys) = false)
   /\ exists db',
       resync string Reference.JSON_parse Reference.AES_decrypt Scenario.db_no_keys
       = OK db'
       /\ lostFlag "c1" db' = Some false
       /\ encryptionCredential.findByCredentialId "c1" db'
          = [EncryptionCredential.mk "e0" "c1"])
  /\ ((forall K, In K (repo_Encryption Scenario.db_dangling) ->
                 is_ok (decrypt string Reference.JSON_parse Reference.AES_decrypt
                          (Scenario.sealed "c1" Scenario.K0 false) (Some K)
                          Scenario.db_dangling) = false)
      /\ exists db',
          resync string Reference.JSON_parse Reference.AES_decrypt
            Scenario.db_dangling = OK db'
          /\ lostFlag "c1" db' = Some true
          /\ encryptionCredential.findByCredentialId "c1" db'
             = [EncryptionCredential.mk "e0" "c1"]).
Proof.
  split; split.
  - intros K [].
  - eexists. repeat split; reflexivity.
  - simpl. intros K [<-|[]]. reflexivity.
  - eexists. repeat split; reflexivity.
Qed.

(** The pass on the store without keys. *)
Lemma resync_without_keys_witness :
  repo_Encryption Scenario.db_no_keys = []
  /\ resync string Reference.JSON_parse Reference.AES_decrypt Scenario.db_no_keys
     = OK Scenario.db_no_keys.
Proof.
  split; [reflexivity|].
  apply (resync_without_keys string Reference.JSON_parse Reference.AES_decrypt
           Scenario.db_no_keys).
  reflexivity.
Defined.

(** The round trip on the store with keys K1 and K2, for a payload with one
    text field: a credential holding what [encrypt] returned decrypts, under
    the key [encrypt] returned, to the payload. *)
Lemma encrypt_decrypt_round_trip_witness :
  JSON.parse (JSON.stringify [("apiKey", JSON.Text "sk-1")])
  = OK [("apiKey", JSON.Text "sk-1")]
  /\ decrypt JSON.payload JSON.parse Reference.AES_decrypt
       (Credential.mk "c9"
          (Reference.AES_encrypt "salt"
             (JSON.stringify [("apiKey", JSON.Text "sk-1")]) "key-two")
          false)
       (Some (select_id_encryptionKey Scenario.K2)) Scenario.db_stale
     = OK (select_id_encryptionKey Scenario.K2, [("apiKey", JSON.Text "sk-1")])
  /\ decrypt JSON.payload JSON.parse Reference.AES_decrypt
       (Credential.mk "c9"
          (Reference.AES_encrypt "salt"
             (JSON.stringify [("apiKey", JSON.Text "sk-1")]) "key-two")
          false)
       (Some Scenario.K2) Scenario.db_stale
     = OK (Scenario.K2, [("apiKey", JSON.Text "sk-1")]).
Proof.
  split; [reflexivity|].
  destruct (encrypt_decrypt_round_trip JSON.payload JSON.stringify JSON.parse
              Reference.AES_encrypt Reference.AES_decrypt
              reference_AES_round_trip
              "salt" [("apiKey", JSON.Text "sk-1")] [("apiKey", JSON.Text "sk-1")]
              Scenario.db_stale Scenario.db_stale
              (Credential.mk "c9"
                 (Reference.AES_encrypt "salt"
                    (JSON.stringify [("apiKey", JSON.Text "sk-1")]) "key-two")
                 false)
              eq_refl)
    as [with_key after_encrypt].
  split.
  - apply (after_encrypt (select_id_encryptionKey Scenario.K2)
             (Reference.AES_encrypt "salt"
                (JSON.stringify [("apiKey", JSON.Text "sk-1")]) "key-two"));
      reflexivity.
  - apply (with_key Scenario.K2). reflexivity.
Defined.

(** C5 as stated fails on a payload with a field that holds [NaN]:
    [JSON.stringify] writes the field as [null], and the credential holding
    what [encrypt] returned decrypts, under the key [encrypt] returned, to a
    payload whose field is [null]. *)
Lemma encrypt_decrypt_round_trip_counterexample :
  encrypt JSON.payload JSON.stringify Reference.AES_encrypt "salt"
    [("token", JSON.NaN)] Scenario.db_stale
  = OK (select_id_encryptionKey Scenario.K2,
        Reference.AES_encrypt "salt" (JSON.stringify [("token", JSON.NaN)])
          "key-two")
  /\ decrypt JSON.payload JSON.parse Reference.AES_decrypt
       (Credential.mk "c9"
          (Reference.AES_encrypt "salt" (JSON.stringify [("token", JSON.NaN)])
             "key-two")
          false)
       (Some (select_id_encryptionKey Scenario.K2)) Scenario.db_stale
     = OK (select_id_encryptionKey Scenario.K2, [("token", JSON.Null)])
  /\ [("token", JSON.Null)] <> [("token", JSON.NaN)].
Proof.
  repeat split; try reflexivity. discriminate.
Qed.

(** [encrypt] on the store without keys and on the store with keys K1 and
    K2, of which K2 is the latest. *)
Lemma encrypt_latest_key_witness :
  encrypt string Reference.JSON_stringify Reference.AES_encrypt "salt"
    Scenario.payload Scenario.db_no_keys
  = Throw (InternalFlowiseError INTERNAL_SERVER_ERROR
             ("Error: encryptionService.encrypt - "
              ++ "Error: encryptionService.get - No encryption key available"))
  /\ exists row,
      In row (repo_Encryption Scenario.db_stale)
      /\ (forall r, In r (repo_Encryption Scenario.db_stale) ->
            date_leb (Encryption.updatedDate r) (Encryption.updatedDate row) = true)
      /\ get None Scenario.db_stale = OK (select_id_encryptionKey row)
      /\ encrypt string Reference.JSON_stringify Reference.AES_encrypt "salt"
           Scenario.payload Scenario.db_stale
         = OK (select_id_encryptionKey row,
               Reference.AES_encrypt "salt"
                 (Reference.JSON_stringify Scenario.payload)
                 (Encryption.encryptionKey row)).
Proof.
  split.
  - apply (proj1 (encrypt_latest_key string Reference.JSON_stringify
                    Reference.AES_encrypt "salt" Scenario.payload
                    Scenario.db_no_keys)).
    reflexivity.
  - apply (proj2 (encrypt_latest_key string Reference.JSON_stringify
                    Reference.AES_encrypt "salt" Scenario.payload
                    Scenario.db_stale)).
    discriminate.
Defined.

(** [get] on a credential with no key, with one key and with two keys. *)
Lemma get_credential_trichotomy_witness :
  get (Some (Scenario.sealed "c1" Scenario.K0 false)) Scenario.db_no_keys
  = Throw (InternalFlowiseError INTERNAL_SERVER_ERROR
             "Error: encryptionService.get - credentialId: c1's encryption is lost")
  /\ (exists e,
         associated_keys "c1" Scenario.db_stale = [e]
         /\ In e (repo_Encryption Scenario.db_stale)
         /\ In (EncryptionCredential.mk (Encryption.id e) "c1")
              (repo_EncryptionCredential Scenario.db_stale)
         /\ get (Some (Scenario.sealed "c1" Scenario.K2 true)) Scenario.db_stale
            = OK e)
  /\ get (Some (Scenario.sealed "c1" Scenario.K1 true)) Scenario.db_ambiguous
     = Throw (InternalFlowiseError INTERNAL_SERVER_ERROR
                "Error: encryptionService.get - credentialId: c1 have multiple encryptions").
Proof.
  split; [|split].
  - apply (proj1 (get_credential_trichotomy
                    (Scenario.sealed "c1" Scenario.K0 false) Scenario.db_no_keys
                    (or_introl eq_refl))).
    reflexivity.
  - apply (proj1 (proj2 (get_credential_trichotomy
                           (Scenario.sealed "c1" Scenario.K2 true)
                           Scenario.db_stale (or_introl eq_refl)))).
    reflexivity.
  - apply (proj2 (proj2 (get_credential_trichotomy
                           (Scenario.sealed "c1" Scenario.K1 true)
                           Scenario.db_ambiguous (or_introl eq_refl)))).
    vm_compute. lia.
Defined.

(** [create] on a partial without a name, on one with an empty name and on
    one with a name and no key. *)
Lemma create_validation_witness :
  create (Scenario.host 1) (mkPartial None (Some "key-one")) Scenario.db_no_keys
  = Throw (InternalFlowiseError INTERNAL_SERVER_ERROR
             ("Error: encryptionService.create - "
              ++ "Please provide a name for this encryption."))
  /\ (exists err,
         create (Scenario.host 1) (mkPartial (Some "") (Some "key-one"))
           Scenario.db_no_keys = Throw err)
  /\ Encryption.encryptionKey
       (Encryption.mk "uuid-1" (Some "7") "QUFBQUFBQUFBQUFBQUFBQUFBQUFBQUFB"
          (Some 1%Z))
     = base64 (randomBytes 24 (Scenario.host 1))
  /\ List.length (randomBytes 24 (Scenario.host 1)) = 24%nat.
Proof.
  split; [|split].
  - apply (proj1 (proj2 (create_validation (Scenario.host 1)
                           (mkPartial None (Some "key-one")) Scenario.db_no_keys))).
    reflexivity.
  - apply (proj1 (create_validation (Scenario.host 1)
                    (mkPartial (Some "") (Some "key-one")) Scenario.db_no_keys)).
    right. reflexivity.
  - apply (proj2 (proj2 (create_validation (Scenario.host 1)
                           (mkPartial (Some "7") None) Scenario.db_no_keys))
             (Encryption.mk "uuid-1" (Some "7") "QUFBQUFBQUFBQUFBQUFBQUFBQUFBQUFB"
                (Some 1%Z))
             (set_encryption
                [Encryption.mk "uuid-1" (Some "7") "QUFBQUFBQUFBQUFBQUFBQUFBQUFBQUFB"
                   (Some 1%Z)] Scenario.db_no_keys)).
    + reflexivity.
    + reflexivity.
Defined.

(** [generate] with no override key, no legacy key file and an empty
    store. *)
Lemma generate_at_least_one_key_witness :
  generate (Scenario.host 1) (Scenario.host 2) (Scenario.host 3) None None
    (mkDb [] [] [])
  = OK (Encryption.mk "uuid-3" (Some "1") "QUFBQUFBQUFBQUFBQUFBQUFBQUFBQUFB"
          (Some 3%Z),
        mkDb [Encryption.mk "uuid-3" (Some "1") "QUFBQUFBQUFBQUFBQUFBQUFBQUFBQUFB"
                (Some 3%Z)] [] [])
  /\ List.length (randomBytes 24 (Scenario.host 3)) = 24%nat
  /\ (base64 (randomBytes 24 (Scenario.host 3)) =? "") = false.
Proof.
  apply (proj2 (generate_at_least_one_key (Scenario.host 1) (Scenario.host 2)
                  (Scenario.host 3) None None (mkDb [] [] []))); reflexivity.
Defined.

(** [generate] twice with an override key, from an empty store: the second
    call leaves the one key the first call admitted. *)
Lemma generate_idempotent_witness :
  exists e',
    get None (mkDb [Encryption.mk "uuid-2" (Some "1") "secret" (Some 2%Z)] [] [])
    = OK e'
    /\ generate (Scenario.host 4) (Scenario.host 5) (Scenario.host 6)
         (Some "secret") None
         (mkDb [Encryption.mk "uuid-2" (Some "1") "secret" (Some 2%Z)] [] [])
       = OK (e', mkDb [Encryption.mk "uuid-2" (Some "1") "secret" (Some 2%Z)] [] []).
Proof.
  apply (generate_idempotent (Scenario.host 1) (Scenario.host 2) (Scenario.host 3)
           (Scenario.host 4) (Scenario.host 5) (Scenario.host 6)
           (Some "secret") None (mkDb [] [] [])
           (Encryption.mk "uuid-2" None "secret" None)).
  reflexivity.
Defined.

(** ** The further properties on the sample stores *)

(** The flag of the credential encrypted under K2, on the store with keys
    K1 and K2. *)
Lemma resync_flag_correct_witness :
  exists db',
    resync string Reference.JSON_parse Reference.AES_decrypt Scenario.db_stale
    = OK db'
    /\ lostFlag "c1" db'
       = Some (negb (existsb
                       (fun e =>
                          is_ok (decrypt string Reference.JSON_parse
                                   Reference.AES_decrypt
                                   (Scenario.sealed "c1" Scenario.K2 true)
                                   (Some e) Scenario.db_stale))
                       (repo_Encryption Scenario.db_stale))).
Proof.
  apply (resync_flag_correct string Reference.JSON_parse Reference.AES_decrypt
           Scenario.db_stale (Scenario.sealed "c1" Scenario.K2 true)).
  - distinct_ids.
  - simpl. auto.
  - discriminate.
Defined.

(** The associations of the lost credential whose one association points
    at a key that is not in the store. *)
Lemma resync_lost_associations_witness :
  exists db',
    resync string Reference.JSON_parse Reference.AES_decrypt Scenario.db_dangling
    = OK db'
    /\ encryptionCredential.findByCredentialId "c1" db'
       = filter (points_outside (repo_Encryption Scenario.db_dangling))
           (encryptionCredential.findByCredentialId "c1" Scenario.db_dangling).
Proof.
  apply (resync_lost_associations string Reference.JSON_parse Reference.AES_decrypt
           Scenario.db_dangling (Scenario.sealed "c1" Scenario.K0 false)).
  - distinct_ids.
  - simpl. auto.
  - simpl. intros K [<-|[]]. reflexivity.
Defined.

(** The credential encrypted under K1 that has associations with K2 and
    with K3. *)
Lemma resync_unrepaired_witness :
  exists db',
    resync string Reference.JSON_parse Reference.AES_decrypt Scenario.db_ambiguous
    = OK db'
    /\ encryptionCredential.findByCredentialId "c1" db'
       = filter
           (points_outside
              (rejected string Reference.JSON_parse Reference.AES_decrypt
                 Scenario.db_ambiguous (Scenario.sealed "c1" Scenario.K1 true)
                 (repo_Encryption Scenario.db_ambiguous)))
           (encryptionCredential.findByCredentialId "c1" Scenario.db_ambiguous)
    /\ lostFlag "c1" db' = Some false.
Proof.
  apply (resync_unrepaired string Reference.JSON_parse Reference.AES_decrypt
           Scenario.db_ambiguous (Scenario.sealed "c1" Scenario.K1 true)
           Scenario.K1).
  - distinct_ids.
  - simpl. auto.
  - reflexivity.
  - vm_compute. lia.
Defined.

(** An association of a credential id that is in no row of the credential
    table. *)
Lemma resync_untracked_associations_witness :
  exists db',
    resync string Reference.JSON_parse Reference.AES_decrypt
      (mkDb [Scenario.K1] [Scenario.sealed "c1" Scenario.K0 false]
            [EncryptionCredential.mk "e1" "c1"; EncryptionCredential.mk "e1" "c7"])
    = OK db'
    /\ encryptionCredential.findByCredentialId "c7" db'
       = encryptionCredential.findByCredentialId "c7"
           (mkDb [Scenario.K1] [Scenario.sealed "c1" Scenario.K0 false]
                 [EncryptionCredential.mk "e1" "c1";
                  EncryptionCredential.mk "e1" "c7"]).
Proof.
  apply (resync_untracked_associations string Reference.JSON_parse
           Reference.AES_decrypt
           (mkDb [Scenario.K1] [Scenario.sealed "c1" Scenario.K0 false]
                 [EncryptionCredential.mk "e1" "c1";
                  EncryptionCredential.mk "e1" "c7"])
           "c7").
  simpl. intuition discriminate.
Defined.

(** The association [resync] creates on the store with keys K1 and K2. *)
Lemma resync_sound_witness :
  In (EncryptionCredential.mk "e2" "c1") (repo_EncryptionCredential Scenario.db_stale)
  \/ exists c K,
       In c (repo_Credential Scenario.db_stale)
       /\ In K (repo_Encryption Scenario.db_stale)
       /\ is_ok (decrypt string Reference.JSON_parse Reference.AES_decrypt
                   c (Some K) Scenario.db_stale) = true
       /\ EncryptionCredential.mk "e2" "c1"
          = EncryptionCredential.mk (Encryption.id K) (Credential.id c).
Proof.
  apply (resync_sound string Reference.JSON_parse Reference.AES_decrypt
           Scenario.db_stale
           (mkDb [Scenario.K1; Scenario.K2]
                 [Scenario.sealed "c1" Scenario.K2 false;
                  Scenario.sealed "c2" Scenario.K1 false]
                 [EncryptionCredential.mk "e2" "c1";
                  EncryptionCredential.mk "e1" "c2"])
           (EncryptionCredential.mk "e2" "c1")).
  - reflexivity.
  - simpl. auto.
Defined.

(** A second pass over the store with keys K1 and K2. *)
Lemma resync_idempotent_witness :
  exists db2,
    resync string Reference.JSON_parse Reference.AES_decrypt
      (mkDb [Scenario.K1; Scenario.K2]
            [Scenario.sealed "c1" Scenario.K2 false;
             Scenario.sealed "c2" Scenario.K1 false]
            [EncryptionCredential.mk "e2" "c1"; EncryptionCredential.mk "e1" "c2"])
    = OK db2
    /\ encryptionCredential.findByCredentialId "c1" db2
       = encryptionCredential.findByCredentialId "c1"
           (mkDb [Scenario.K1; Scenario.K2]
                 [Scenario.sealed "c1" Scenario.K2 false;
                  Scenario.sealed "c2" Scenario.K1 false]
                 [EncryptionCredential.mk "e2" "c1";
                  EncryptionCredential.mk "e1" "c2"])
    /\ lostFlag "c1" db2
       = lostFlag "c1"
           (mkDb [Scenario.K1; Scenario.K2]
                 [Scenario.sealed "c1" Scenario.K2 false;
                  Scenario.sealed "c2" Scenario.K1 false]
                 [EncryptionCredential.mk "e2" "c1";
                  EncryptionCredential.mk "e1" "c2"]).
Proof.
  apply (resync_idempotent string Reference.JSON_parse Reference.AES_decrypt
           Scenario.db_stale).
  - distinct_ids.
  - reflexivity.
Defined.

(** [decrypt] without a key on a credential with no key, with one key and
    with two keys. *)
Lemma decrypt_without_key_witness :
  decrypt string Reference.JSON_parse Reference.AES_decrypt
    (Scenario.sealed "c1" Scenario.K0 false) None Scenario.db_no_keys
  = Throw (InternalFlowiseError INTERNAL_SERVER_ERROR
             ("Error: encryptionService.decrypt - "
              ++ "Error: encryptionService.get - credentialId: "
              ++ "c1" ++ "'s encryption is lost"))
  /\ decrypt string Reference.JSON_parse Reference.AES_decrypt
       (Scenario.sealed "c2" Scenario.K2 false) None Scenario.db_lost
     = decrypt string Reference.JSON_parse Reference.AES_decrypt
         (Scenario.sealed "c2" Scenario.K2 false) (Some Scenario.K2)
         Scenario.db_lost
  /\ decrypt string Reference.JSON_parse Reference.AES_decrypt
       (Scenario.sealed "c1" Scenario.K1 true) None Scenario.db_ambiguous
     = Throw (InternalFlowiseError INTERNAL_SERVER_ERROR
                ("Error: encryptionService.decrypt - "
                 ++ "Error: encryptionService.get - credentialId: "
                 ++ "c1" ++ " have multiple encryptions")).
Proof.
  split; [|split].
  - apply (proj1 (decrypt_without_key string Reference.JSON_parse
                    Reference.AES_decrypt
                    (Scenario.sealed "c1" Scenario.K0 false) Scenario.db_no_keys)).
    reflexivity.
  - apply (proj1 (proj2 (decrypt_without_key string Reference.JSON_parse
                           Reference.AES_decrypt
                           (Scenario.sealed "c2" Scenario.K2 false)
                           Scenario.db_lost))).
    reflexivity.
  - apply (proj2 (proj2 (decrypt_without_key string Reference.JSON_parse
                           Reference.AES_decrypt
                           (Scenario.sealed "c1" Scenario.K1 true)
                           Scenario.db_ambiguous))).
    vm_compute. lia.
Defined.

(** The credential encrypted under K2, decrypted without a key after the
    pass over the store with keys K1 and K2. *)
Lemma resync_then_decrypt_witness :
  exists db' P,
    resync string Reference.JSON_parse Reference.AES_decrypt Scenario.db_stale
    = OK db'
    /\ get (Some (Scenario.sealed "c1" Scenario.K2 true)) db' = OK Scenario.K2
    /\ decrypt string Reference.JSON_parse Reference.AES_decrypt
         (Scenario.sealed "c1" Scenario.K2 true) (Some Scenario.K2)
         Scenario.db_stale = OK (Scenario.K2, P)
    /\ decrypt string Reference.JSON_parse Reference.AES_decrypt
         (Scenario.sealed "c1" Scenario.K2 true) None db' = OK (Scenario.K2, P).
Proof.
  apply (resync_then_decrypt string Reference.JSON_parse Reference.AES_decrypt
           Scenario.db_stale (Scenario.sealed "c1" Scenario.K2 true) Scenario.K2).
  - distinct_ids.
  - distinct_ids.
  - simpl. auto.
  - reflexivity.
  - vm_compute. lia.
Defined.

(** The key of the credential associated with K1. *)
Lemma get_credential_sound_witness :
  In Scenario.K1 (repo_Encryption Scenario.db_stale)
  /\ In (EncryptionCredential.mk "e1" "c1")
       (repo_EncryptionCredential Scenario.db_stale)
  /\ In "c1" (map Credential.id (repo_Credential Scenario.db_stale)).
Proof.
  apply (get_credential_sound (Scenario.sealed "c1" Scenario.K2 true)
           Scenario.db_stale Scenario.K1).
  reflexivity.
Defined.

(** [generate] on the store with keys K1 and K2, with a new legacy key and
    the override key K2 has already. *)
Lemma generate_appends_witness :
  exists rows,
    repo_Encryption
      (set_encryption
         (repo_Encryption Scenario.db_stale
          ++ [Encryption.mk "uuid-1" (Some "3") "key-new" (Some 1%Z)])
         Scenario.db_stale)
    = repo_Encryption Scenario.db_stale ++ rows
    /\ (List.length rows <= 2)%nat
    /\ repo_Credential
         (set_encryption
            (repo_Encryption Scenario.db_stale
             ++ [Encryption.mk "uuid-1" (Some "3") "key-new" (Some 1%Z)])
            Scenario.db_stale)
       = repo_Credential Scenario.db_stale
    /\ repo_EncryptionCredential
         (set_encryption
            (repo_Encryption Scenario.db_stale
             ++ [Encryption.mk "uuid-1" (Some "3") "key-new" (Some 1%Z)])
            Scenario.db_stale)
       = repo_EncryptionCredential Scenario.db_stale.
Proof.
  apply (generate_appends (Scenario.host 1) (Scenario.host 2) (Scenario.host 3)
           (Some "key-two") (Some "key-new") Scenario.db_stale
           (select_id_encryptionKey Scenario.K2)).
  reflexivity.
Defined.

Lemma generate_admits_candidates_witness :
  In "key-new"
    (map Encryption.encryptionKey
       (repo_Encryption Scenario.db_stale
        ++ [Encryption.mk "uuid-1" (Some "3") "key-new" (Some 1%Z)]))
  /\ In "key-two"
       (map Encryption.encryptionKey
          (repo_Encryption Scenario.db_stale
           ++ [Encryption.mk "uuid-1" (Some "3") "key-new" (Some 1%Z)])).
Proof.
  destruct (generate_admits_candidates
              (Scenario.host 1) (Scenario.host 2) (Scenario.host 3)
              (Some "key-two") (Some "key-new") Scenario.db_stale
              (select_id_encryptionKey Scenario.K2)
              (set_encryption
                 (repo_Encryption Scenario.db_stale
                  ++ [Encryption.mk "uuid-1" (Some "3") "key-new" (Some 1%Z)])
                 Scenario.db_stale)
              eq_refl) as [legacy override].
  split.
  - apply (legacy "key-new"); [reflexivity|discriminate].
  - apply (override "key-two"); [reflexivity|discriminate].
Defined.

Lemma generate_keeps_keys_nonempty_witness :
  Encryption.encryptionKey (Encryption.mk "uuid-1" (Some "3") "key-new" (Some 1%Z))
  <> "".
Proof.
  apply (generate_keeps_keys_nonempty
           (Scenario.host 1) (Scenario.host 2) (Scenario.host 3)
           (Some "key-two") (Some "key-new") Scenario.db_stale
           (select_id_encryptionKey Scenario.K2)
           (set_encryption
              (repo_Encryption Scenario.db_stale
               ++ [Encryption.mk "uuid-1" (Some "3") "key-new" (Some 1%Z)])
              Scenario.db_stale)).
  - simpl. intros r [<-|[<-|[]]]; discriminate.
  - reflexivity.
  - simpl. auto.
Defined.

Lemma generate_names_witness :
  map Encryption.name
    (repo_Encryption Scenario.db_stale
     ++ [Encryption.mk "uuid-1" (Some "3") "key-new" (Some 1%Z)])
  = map (fun i => Some (toString i)) (seq 1 3)
  /\ NoDup (map Encryption.name
              (repo_Encryption Scenario.db_stale
               ++ [Encryption.mk "uuid-1" (Some "3") "key-new" (Some 1%Z)])).
Proof.
  apply (generate_names
           (Scenario.host 1) (Scenario.host 2) (Scenario.host 3)
           (Some "key-two") (Some "key-new") Scenario.db_stale
           (select_id_encryptionKey Scenario.K2)
           (set_encryption
              (repo_Encryption Scenario.db_stale
               ++ [Encryption.mk "uuid-1" (Some "3") "key-new" (Some 1%Z)])
              Scenario.db_stale)).
  - reflexivity.
  - reflexivity.
Defined.

Lemma generate_no_random_key_witness :
  exists rows,
    repo_Encryption Scenario.db_stale
    ++ [Encryption.mk "uuid-1" (Some "3") "key-new" (Some 1%Z)]
    = repo_Encryption Scenario.db_stale ++ rows
    /\ forall r, In r rows ->
         Some (Encryption.encryptionKey r) = Some "key-new"
         \/ Some (Encryption.encryptionKey r) = Some "key-two".
Proof.
  apply (generate_no_random_key
           (Scenario.host 1) (Scenario.host 2) (Scenario.host 3)
           (Some "key-two") (Some "key-new") Scenario.db_stale
           (select_id_encryptionKey Scenario.K2)
           (set_encryption
              (repo_Encryption Scenario.db_stale
               ++ [Encryption.mk "uuid-1" (Some "3") "key-new" (Some 1%Z)])
              Scenario.db_stale)).
  - left. discriminate.
  - reflexivity.
Defined.

(** [generate] on the store with keys K1 and K2, with K1 in the legacy key
    file and no override key. *)
Lemma generate_nothing_to_admit_witness :
  exists e,
    get None Scenario.db_stale = OK e
    /\ generate (Scenario.host 1) (Scenario.host 2) (Scenario.host 3)
         None (Some "key-one") Scenario.db_stale
       = OK (e, Scenario.db_stale).
Proof.
  apply (generate_nothing_to_admit
           (Scenario.host 1) (Scenario.host 2) (Scenario.host 3)
           None (Some "key-one") Scenario.db_stale).
  - discriminate.
  - intros s E. injection E as <-. right. simpl. auto.
  - intros s E. discriminate E.
Defined.

(** [create] with a name and no key. *)
Lemma create_generated_key_length_witness :
  String.length
    (Encryption.encryptionKey
       (Encryption.mk "uuid-1" (Some "7") "QUFBQUFBQUFBQUFBQUFBQUFBQUFBQUFB"
          (Some 1%Z)))
  = 32%nat.
Proof.
  apply (create_generated_key_length (Scenario.host 1) (mkPartial (Some "7") None)
           Scenario.db_no_keys
           (Encryption.mk "uuid-1" (Some "7") "QUFBQUFBQUFBQUFBQUFBQUFBQUFBQUFB"
              (Some 1%Z))
           (set_encryption
              [Encryption.mk "uuid-1" (Some "7") "QUFBQUFBQUFBQUFBQUFBQUFBQUFBQUFB"
                 (Some 1%Z)] Scenario.db_no_keys)).
  - reflexivity.
  - reflexivity.
Defined.

(** The lost credential of the store with keys K1 and K2, once its key is
    created. *)
Lemma create_then_resync_witness :
  exists db2,
    resync string Reference.JSON_parse Reference.AES_decrypt
      (set_encryption
         (repo_Encryption Scenario.db_lost
          ++ [Encryption.mk "uuid-7" (Some "3") "key-gone" (Some 7%Z)])
         Scenario.db_lost)
    = OK db2
    /\ encryptionCredential.findByCredentialId "c1" db2
       = [EncryptionCredential.mk "uuid-7" "c1"]
    /\ lostFlag "c1" db2 = Some false.
Proof.
  apply (create_then_resync string Reference.JSON_parse Reference.AES_decrypt
           (Scenario.host 7) (mkPartial (Some "3") (Some "key-gone"))
           Scenario.db_lost (Scenario.sealed "c1" Scenario.K0 false)
           (Encryption.mk "uuid-7" (Some "3") "key-gone" (Some 7%Z))).
  - distinct_ids.
  - simpl. auto.
  - simpl. intros K [<-|[<-|[]]]; reflexivity.
  - vm_compute. lia.
  - reflexivity.
  - reflexivity.
Defined.

(** [encrypt] on the store [generate] leaves from an empty one, under an
    override key. *)
Lemma generate_then_encrypt_witness :
  get None (mkDb [Encryption.mk "uuid-2" (Some "1") "secret" (Some 2%Z)] [] [])
  = OK (Encryption.mk "uuid-2" None "secret" None)
  /\ encrypt string Reference.JSON_stringify Reference.AES_encrypt "salt"
       Scenario.payload
       (mkDb [Encryption.mk "uuid-2" (Some "1") "secret" (Some 2%Z)] [] [])
     = OK (Encryption.mk "uuid-2" None "secret" None,
           Reference.AES_encrypt "salt" (Reference.JSON_stringify Scenario.payload)
             "secret").
Proof.
  apply (generate_then_encrypt string Reference.JSON_stringify Reference.AES_encrypt
           (Scenario.host 1) (Scenario.host 2) (Scenario.host 3)
           (Some "secret") None (mkDb [] [] [])
           (Encryption.mk "uuid-2" None "secret" None)
           (mkDb [Encryption.mk "uuid-2" (Some "1") "secret" (Some 2%Z)] [] [])
           "salt" Scenario.payload).
  reflexivity.
Defined.

(** [init] on the store with keys K1 and K2. *)
Lemma init_settles_witness :
  exists db',
    init string Reference.JSON_parse Reference.AES_decrypt
      (Scenario.host 1) (Scenario.host 2) (Scenario.host 3) None None
      Scenario.db_stale = OK db'
    /\ repo_Encryption db' <> []
    /\ lostFlag "c1" db'
       = Some (negb (existsb
                       (fun e =>
                          is_ok (decrypt string Reference.JSON_parse
                                   Reference.AES_decrypt
                                   (Scenario.sealed "c1" Scenario.K2 true)
                                   (Some e) db'))
                       (repo_Encryption db'))).
Proof.
  apply (init_settles string Reference.JSON_parse Reference.AES_decrypt
           (Scenario.host 1) (Scenario.host 2) (Scenario.host 3) None None
           Scenario.db_stale (Scenario.sealed "c1" Scenario.K2 true)).
  - distinct_ids.
  - simpl. auto.
Defined.
